(** * myshop-backend: the time-driven simulation engine of [api/storage.py]

    A shallow embedding of [DemoDataStore] (module
    [myshop_backend.api.storage]) and of three views of
    [myshop_backend.api.views] (the ingestion start view and the two save
    views) and of [allow_no_trailing_slash] of [api/urls.py], followed by
    the properties of the ingestion progress engine, the job phase engine,
    selection, finalization, user state and stored assets.

    Modelling conventions.
    - A [datetime] is the integer number of microseconds since the epoch
      (its resolution in Python). [timedelta.total_seconds()] and the
      arithmetic of the source on its result are Python [float] operations:
      each one yields the binary64 number nearest to the exact result (ties
      to even). A [float] is represented by the rational number it denotes,
      and [round64] is that rounding. The exponent range of binary64 is not
      modelled: two datetimes are less than [2^59] microseconds apart, and
      every value computed here from such a difference is zero or lies
      between [2^-30] and [2^40] in magnitude, far from overflow and from
      the subnormal numbers.
    - [timezone.now()] and [uuid4().hex[:12]] are inputs of the functions
      that call them ([now], [hex]).
    - The dictionaries of the store are finite maps, a Python [set] of
      strings is a [gset string]; the objects stored in them are mutated in
      place by the source, which the model renders by writing the updated
      record back under its key.
    - [None] as the result of [_refresh_ingestion_progress] and
      [get_ingestion] stands for the [IndexError] that [record.steps[idx]]
      raises on a step list that is too short. *)

From Stdlib Require Import ZArith QArith Qround Qpower Lia Lqa Ascii.
From Stdlib Require PrimFloat FloatOps Uint63.
From stdpp Require Import gmap strings list fin_maps pretty.

(** ** Data model *)

(** The status strings of ingestion records and of their steps. *)
Inductive Status := pending | in_progress | completed | canceled.

#[global] Instance Status_eq_dec : EqDecision Status.
Proof. solve_decision. Defined.

(** The status strings of generation jobs. *)
Inductive JobStatus := queued | running | succeeded | failed.

#[global] Instance JobStatus_eq_dec : EqDecision JobStatus.
Proof. solve_decision. Defined.

(** One entry of [IngestionRecord.steps]: [{"id", "label", "status"}]. *)
Record Step := mkStep {
  step_id : string;
  step_label : string;
  step_status : Status;
}.

(** One entry of a group's ["assets"] list. The key ["category"] is read
    with [asset.get("category")] and may be absent. *)
Record Asset := mkAsset {
  asset_id : string;
  asset_name : string;
  asset_url : string;
  asset_selected : bool;
  asset_category : option string;
}.

(** One entry of [IngestionRecord.asset_groups]. *)
Record Group := mkGroup {
  group_id : string;
  group_name : string;
  group_assets : list Asset;
}.

Record IngestionRecord := mkIngestionRecord {
  rec_id : string;
  store_id : string;
  status : Status;
  progress : Z;
  steps : list Step;
  estimated_seconds_remaining : Z;
  started_at : Z;
  selected_asset_ids : gset string;
  asset_groups : list Group;
}.

(** A value of [DemoDataStore.assets]. *)
Record StoredAsset := mkStoredAsset {
  sa_id : string;
  sa_name : string;
  sa_url : string;
  sa_category : string;
  sa_storeId : string;
}.

#[global] Instance StoredAsset_eq_dec : EqDecision StoredAsset.
Proof. solve_decision. Defined.

(** A poster or menu-board job. Of the payload only ["headline"] is ever
    read back (by [save_poster_job]); a menu-board job has none. *)
Record Job := mkJob {
  job_id : string;
  job_status : JobStatus;
  resultUrl : option string;
  error : option string;
  headline : option string;
  createdAt : Z;
}.

Inductive JobKind := poster | menu.

Record StoreInfo := mkStoreInfo {
  si_id : string;
  si_name : string;
  si_address : string;
  si_category : string;
}.

Record Prefs := mkPrefs {
  theme : string;
  notifications : bool;
}.

(** The mutable dictionaries of [DemoDataStore]. *)
Record DemoDataStore := mkStore {
  user_preferences : gmap Z Prefs;
  user_store_links : gmap Z (list string);
  ingestions : gmap string IngestionRecord;
  assets : gmap string StoredAsset;
  poster_jobs : gmap string Job;
  menu_board_jobs : gmap string Job;
}.

(** [self.stores] and [self.asset_library_id] are assigned once in
    [__init__] and never written again. *)
Definition stores : list StoreInfo :=
  [ mkStoreInfo "s1" "The Morning Brew" "123 Main St" "Cafe";
    mkStoreInfo "s2" "Golden Spoon Diner" "22 Oak Avenue" "Diner";
    mkStoreInfo "s3" "Lotus Garden" "8 Park Lane" "Restaurant";
    mkStoreInfo "s4" "Neon Noodles" "77 Sunset Blvd" "Street Food" ].

Definition asset_library_id : string := "library_default".

(** [self.stores[0]["id"]]; the list is a non-empty literal. *)
Definition stores_0_id : string :=
  from_option si_id "" (stores !! 0%nat).

(** ** Field updates (the source assigns to attributes and keys in place) *)

Definition set_step_status (st : Status) (s : Step) : Step :=
  mkStep (step_id s) (step_label s) st.

Definition set_steps (l : list Step) (r : IngestionRecord) : IngestionRecord :=
  mkIngestionRecord (rec_id r) (store_id r) (status r) (progress r) l
    (estimated_seconds_remaining r) (started_at r) (selected_asset_ids r)
    (asset_groups r).

Definition set_summary (st : Status) (p eta : Z) (r : IngestionRecord)
  : IngestionRecord :=
  mkIngestionRecord (rec_id r) (store_id r) st p (steps r) eta
    (started_at r) (selected_asset_ids r) (asset_groups r).

Definition set_selection (sel : gset string) (gs : list Group)
    (r : IngestionRecord) : IngestionRecord :=
  mkIngestionRecord (rec_id r) (store_id r) (status r) (progress r) (steps r)
    (estimated_seconds_remaining r) (started_at r) sel gs.

Definition set_asset_selected (b : bool) (a : Asset) : Asset :=
  mkAsset (asset_id a) (asset_name a) (asset_url a) b (asset_category a).

Definition set_ingestions (m : gmap string IngestionRecord)
    (s : DemoDataStore) : DemoDataStore :=
  mkStore (user_preferences s) (user_store_links s) m (assets s)
    (poster_jobs s) (menu_board_jobs s).

Definition set_assets (m : gmap string StoredAsset) (s : DemoDataStore)
  : DemoDataStore :=
  mkStore (user_preferences s) (user_store_links s) (ingestions s) m
    (poster_jobs s) (menu_board_jobs s).

Definition set_poster_jobs (m : gmap string Job) (s : DemoDataStore)
  : DemoDataStore :=
  mkStore (user_preferences s) (user_store_links s) (ingestions s) (assets s)
    m (menu_board_jobs s).

Definition set_menu_board_jobs (m : gmap string Job) (s : DemoDataStore)
  : DemoDataStore :=
  mkStore (user_preferences s) (user_store_links s) (ingestions s) (assets s)
    (poster_jobs s) m.

Definition set_job_status (st : JobStatus) (j : Job) : Job :=
  mkJob (job_id j) st (resultUrl j) (error j) (headline j) (createdAt j).

Definition set_job_resultUrl (u : option string) (j : Job) : Job :=
  mkJob (job_id j) (job_status j) u (error j) (headline j) (createdAt j).

Definition set_job_error (e : option string) (j : Job) : Job :=
  mkJob (job_id j) (job_status j) (resultUrl j) e (headline j) (createdAt j).

(** ** Time and numbers *)

(** [2^k] for an integer [k] of either sign. *)
Definition pow2 (k : Z) : Q := Qpower 2 k.

(** [floor (log2 x)] for a positive rational [x]: the difference of the
    bit lengths of numerator and denominator, or one less. *)
Definition Qlog2 (x : Q) : Z :=
  let k := (Z.log2 (Qnum x) - Z.log2 (Z.pos (Qden x)))%Z in
  if Qle_bool (pow2 k) x then k else (k - 1)%Z.

(** The integer nearest to [q], the even one of the two when [q] is half
    way between them. *)
Definition round_half_even (q : Q) : Z :=
  let f := Qfloor q in
  match (q - inject_Z f ?= 1 # 2)%Q with
  | Lt => f
  | Gt => (f + 1)%Z
  | Eq => if Z.even f then f else (f + 1)%Z
  end.

(** The binary64 number nearest to a positive [x]: with
    [2^k <= x < 2^(k+1)], the nearest multiple of [2^(k - 52)], which has
    a significand of 53 bits. *)
Definition round64_pos (x : Q) : Q :=
  let e := (Qlog2 x - 52)%Z in
  (inject_Z (round_half_even (x / pow2 e)) * pow2 e)%Q.

(** Rounding of an exact result to binary64 (to nearest, ties to even). *)
Definition round64 (x : Q) : Q :=
  match Qnum x with
  | Z0 => 0
  | Zpos _ => round64_pos x
  | Zneg _ => - round64_pos (- x)
  end.

(** [x / y], [x * y] and [x - y] on floats; an [int] operand is first
    converted, exactly for the small constants of the source. The divisors
    of the source are the non-zero constants [10**6] and [total_time]. *)
Definition float_div (x y : Q) : Q := round64 (x / y).
Definition float_mul (x y : Q) : Q := round64 (x * y).
Definition float_sub (x y : Q) : Q := round64 (x - y).

(** [delta.total_seconds()] for a [timedelta] of [d] microseconds: the true
    division [d / 10**6] of two integers, which is correctly rounded. *)
Definition total_seconds (d : Z) : Q := round64 (d # 1000000).

(** [(now - t).total_seconds()]. *)
Definition elapsed_since (t now : Z) : Q := total_seconds (now - t).

(** Python's [int(x)] on a number: truncation toward zero. *)
Definition int (x : Q) : Z := Z.quot (Qnum x) (Z.pos (Qden x)).

(** [x >= c] for an integer constant [c]. *)
Definition ge_int (x : Q) (c : Z) : bool := Qle_bool (inject_Z c) x.

(** [x > c] for an integer constant [c]. *)
Definition gt_int (x : Q) (c : Z) : bool := negb (Qle_bool x (inject_Z c)).

(** [_uid(prefix)], with [hex] for [uuid4().hex[:12]]. *)
Definition _uid (prefix hex : string) : string := prefix +:+ "_" +:+ hex.

(** ** Ingestion progress engine *)

Definition step_durations : list Z := [8; 10; 12; 20]%Z.

(** The first loop of [_refresh_ingestion_progress]: running sums. *)
Fixpoint accumulate (cumulative : Z) (durations : list Z) : list Z :=
  match durations with
  | [] => []
  | duration :: rest =>
      (cumulative + duration)%Z :: accumulate (cumulative + duration)%Z rest
  end.

Definition progress_points : list Z := accumulate 0 step_durations.

(** [progress_points[-1]]. *)
Definition total_time : Z := List.last progress_points 0%Z.

(** The second loop, [for idx, cutoff in enumerate(progress_points)],
    started at index [idx] on the cutoffs still to visit. *)
Fixpoint refresh_steps (elapsed : Q) (idx : nat) (points : list Z)
    (l : list Step) : option (list Step) :=
  match points with
  | [] => Some l
  | cutoff :: rest =>
      match l !! idx with
      | None => None
      | Some s =>
          if ge_int elapsed cutoff then
            refresh_steps elapsed (S idx) rest
              (<[idx := set_step_status completed s]> l)
          else
            Some (if decide (step_status s = pending)
                  then <[idx := set_step_status in_progress s]> l
                  else l)
      end
  end.

Definition _refresh_ingestion_progress (record : IngestionRecord) (now : Z)
  : option IngestionRecord :=
  if decide (status record <> in_progress) then Some record
  else
    let elapsed := elapsed_since (started_at record) now in
    match refresh_steps elapsed 0 progress_points (steps record) with
    | None => None
    | Some l =>
        if ge_int elapsed total_time then
          Some (set_summary completed 100 0
                  (set_steps (set_step_status completed <$> l) record))
        else
          Some (set_summary (status record)
                  (Z.min 95
                     (int (float_mul (float_div elapsed (inject_Z total_time)) 100)))
                  (Z.max 10 (int (float_sub (inject_Z total_time) elapsed)))
                  (set_steps l record))
    end.

(** The body of [cancel_ingestion] on the record found. *)
Definition cancel_record (record : IngestionRecord) : IngestionRecord :=
  set_summary canceled (Z.min (progress record) 80) 0
    (set_steps
       ((fun s => if decide (step_status s = in_progress)
                  then set_step_status canceled s else s) <$> steps record)
       record).

(** The body of [record_selection] on the record found. *)
Definition select_record (selected_ids : list string)
    (record : IngestionRecord) : IngestionRecord :=
  let sel : gset string := list_to_set selected_ids in
  set_selection sel
    ((fun g => mkGroup (group_id g) (group_name g)
                 ((fun a => set_asset_selected (bool_decide (asset_id a ∈ sel)) a)
                    <$> group_assets g))
       <$> asset_groups record)
    record.

(** The first four assignments and the step loop of [finalize_ingestion]. *)
Definition complete_record (record : IngestionRecord) : IngestionRecord :=
  set_summary completed 100 0
    (set_steps (set_step_status completed <$> steps record) record).

(** ** Strings *)

(** Truthiness of an optional string ([None] and [""] are falsy). *)
Definition truthy (o : option string) : bool :=
  match o with
  | Some (String _ _) => true
  | _ => false
  end.

(** [o or d] for an optional string [o]. *)
Definition or_else (o : option string) (d : string) : string :=
  match o with
  | Some (String c r) => String c r
  | _ => d
  end.

(** ["_" in s]. *)
Fixpoint contains_underscore (s : string) : bool :=
  match s with
  | EmptyString => false
  | String c r => if Ascii.eqb c "_"%char then true else contains_underscore r
  end.

(** [s.split("_", 1)[0]]: what precedes the first underscore, all of [s]
    when it has none. *)
Fixpoint split_head (s : string) : string :=
  match s with
  | EmptyString => EmptyString
  | String c r => if Ascii.eqb c "_"%char then EmptyString else String c (split_head r)
  end.

Definition group_id_from_asset (asset : Asset) : string :=
  if truthy (asset_category asset) then or_else (asset_category asset) ""
  else if contains_underscore (asset_id asset) then split_head (asset_id asset)
  else "products".

(** ** User state *)

Definition set_user_state (p : gmap Z Prefs) (l : gmap Z (list string))
    (s : DemoDataStore) : DemoDataStore :=
  mkStore p l (ingestions s) (assets s) (poster_jobs s) (menu_board_jobs s).

Definition ensure_user_state (user_id : Z) (s : DemoDataStore) : DemoDataStore :=
  set_user_state
    (match user_preferences s !! user_id with
     | None => <[user_id := mkPrefs "light" true]> (user_preferences s)
     | Some _ => user_preferences s
     end)
    (match user_store_links s !! user_id with
     | None => <[user_id := [stores_0_id]]> (user_store_links s)
     | Some _ => user_store_links s
     end)
    s.

(** After [ensure_user_state] the user has a list of links, so the lookup
    [self.user_store_links[user_id]] cannot fail. *)
Definition link_store (user_id : Z) (sid : string) (s : DemoDataStore)
  : DemoDataStore :=
  let s1 := ensure_user_state user_id s in
  match user_store_links s1 !! user_id with
  | Some l =>
      if decide (sid ∈ l) then s1
      else set_user_state (user_preferences s1)
             (<[user_id := l ++ [sid]]> (user_store_links s1)) s1
  | None => s1
  end.

(** [for user_id in self.user_store_links: self.link_store(user_id, store_id)]. *)
Definition link_store_for_asset (sid : string) (s : DemoDataStore)
  : DemoDataStore :=
  foldl (fun acc user_id => link_store user_id sid acc) s
    (map_to_list (user_store_links s)).*1.

(** ** Ingestions *)

Definition base_images : list string :=
  [ "https://images.unsplash.com/photo-1504674900247-0877df9cc836?q=80&w=800";
    "https://images.unsplash.com/photo-1509042239860-f550ce710b93?q=80&w=800";
    "https://images.unsplash.com/photo-1504674900247-0877df9cc836?q=80&w=800";
    "https://images.unsplash.com/photo-1487412720507-e7ab37603c6f?q=80&w=800" ].

Definition categories : list (string * string) :=
  [ ("logo", "Store Logo"); ("menu", "Menu");
    ("products", "Product Images"); ("interior", "Interior") ].

(** The inner loop [for variant in range(1, 3)] for one category. *)
Definition build_assets (sid : string) (idx : nat) (category_id name : string)
  : list Asset :=
  (fun variant : nat =>
     mkAsset (category_id +:+ "_" +:+ pretty variant +:+ "_" +:+ sid)
       (name +:+ " " +:+ pretty variant)
       (default "" (base_images !! ((idx + variant) mod length base_images)%nat))
       (bool_decide (variant = 1%nat))
       None)
  <$> seq 1 2.

Definition _build_ingestion_assets (sid : string) : list Group :=
  imap (fun idx c => mkGroup c.1 c.2 (build_assets sid idx c.1 c.2)) categories.

Definition initial_steps : list Step :=
  [ mkStep "collect_basics" "Collecting basic information" in_progress;
    mkStep "find_logo" "Finding store logo" pending;
    mkStep "catalog_products" "Cataloging products" pending;
    mkStep "gather_photos" "Gathering photos" pending ].

(** The record [start_ingestion] builds; [selected_asset_ids] and
    [started_at] take their dataclass defaults, [set()] and the clock. *)
Definition new_record (sid hex : string) (now : Z) : IngestionRecord :=
  mkIngestionRecord (_uid "ing" hex) sid in_progress 5 initial_steps 90 now ∅
    (_build_ingestion_assets sid).

Definition start_ingestion (sid hex : string) (now : Z) (s : DemoDataStore)
  : IngestionRecord * DemoDataStore :=
  let record := new_record sid hex now in
  (record, set_ingestions (<[rec_id record := record]> (ingestions s)) s).

Definition get_ingestion (ingestion_id : string) (now : Z) (s : DemoDataStore)
  : option (option IngestionRecord * DemoDataStore) :=
  match ingestions s !! ingestion_id with
  | None => Some (None, s)
  | Some record =>
      match _refresh_ingestion_progress record now with
      | None => None
      | Some record' =>
          Some (Some record',
                set_ingestions (<[ingestion_id := record']> (ingestions s)) s)
      end
  end.

Definition cancel_ingestion (ingestion_id : string) (s : DemoDataStore)
  : option IngestionRecord * DemoDataStore :=
  match ingestions s !! ingestion_id with
  | None => (None, s)
  | Some record =>
      let record' := cancel_record record in
      (Some record',
       set_ingestions (<[ingestion_id := record']> (ingestions s)) s)
  end.

Definition record_selection (ingestion_id : string)
    (selected_ids : list string) (s : DemoDataStore)
  : option (gset string) * DemoDataStore :=
  match ingestions s !! ingestion_id with
  | None => (None, s)
  | Some record =>
      let record' := select_record selected_ids record in
      (Some (selected_asset_ids record'),
       set_ingestions (<[ingestion_id := record']> (ingestions s)) s)
  end.

(** All assets of a record in iteration order
    ([for group in record.asset_groups: for asset in group["assets"]]). *)
Definition all_assets (record : IngestionRecord) : list Asset :=
  asset_groups record ≫= group_assets.

Definition selected_assets (record : IngestionRecord) : list Asset :=
  filter (fun a => asset_id a ∈ selected_asset_ids record
                   ∨ asset_selected a = true)
    (all_assets record).

Definition asset_copy (record : IngestionRecord) (asset : Asset) : StoredAsset :=
  mkStoredAsset (asset_id asset) (asset_name asset) (asset_url asset)
    (group_id_from_asset asset) (store_id record).

(** [for asset in selected_assets: self.assets[asset_copy["id"]] = asset_copy]. *)
Definition promote_assets (record : IngestionRecord) (l : list Asset)
    (m : gmap string StoredAsset) : gmap string StoredAsset :=
  foldl (fun acc asset => <[asset_id asset := asset_copy record asset]> acc) m l.

Record FinalizeOutcome := mkOutcome {
  assetLibraryId : string;
  totalAssets : nat;
}.

Definition finalize_ingestion (ingestion_id : string) (s : DemoDataStore)
  : option FinalizeOutcome * DemoDataStore :=
  match ingestions s !! ingestion_id with
  | None => (None, s)
  | Some record0 =>
      let record := complete_record record0 in
      let s1 := set_ingestions (<[ingestion_id := record]> (ingestions s)) s in
      let sel := selected_assets record in
      let s2 := set_assets (promote_assets record sel (assets s1)) s1 in
      let s3 := link_store_for_asset (store_id record) s2 in
      (Some (mkOutcome asset_library_id (length sel)), s3)
  end.

(** The start view, [StoreIngestionStartView.post], after its checks: it
    links the store to the caller, starts the ingestion, and records as
    selected every asset whose [selected] flag is set. The response carries
    [record.id] and [record.status]. *)
Definition StoreIngestionStartView_post (user_id : Z) (sid hex : string)
    (now : Z) (s : DemoDataStore) : (string * Status) * DemoDataStore :=
  let s1 := link_store user_id sid s in
  let '(record, s2) := start_ingestion sid hex now s1 in
  let ids := asset_id <$> filter (fun a => asset_selected a = true)
                            (all_assets record) in
  let s3 := (record_selection (rec_id record) ids s2).2 in
  ((rec_id record, status record), s3).

(** ** Assets *)

Definition default_asset_url : string :=
  "https://images.unsplash.com/photo-1509042239860-f550ce710b93?q=80&w=900".

Definition create_asset (name category sid : string)
    (aid url : option string) (hex : string) (s : DemoDataStore)
  : StoredAsset * DemoDataStore :=
  let final_id := or_else aid (_uid "asset" hex) in
  let asset := mkStoredAsset final_id name (or_else url default_asset_url)
                 category sid in
  (asset, set_assets (<[final_id := asset]> (assets s)) s).

(** ** Generation jobs *)

Definition result_url_prefix : string :=
  "https://images.unsplash.com/photo-1504674900247-0877df9cc836?q=80&w=1200&".

Definition _progress_job (job : Job) (kind : JobKind) (now : Z) : Job :=
  if decide (job_status job = failed ∨ job_status job = succeeded) then job
  else
    let elapsed := elapsed_since (createdAt job) now in
    if gt_int elapsed 10 then
      set_job_resultUrl (Some (result_url_prefix +:+ job_id job))
        (set_job_status succeeded job)
    else if gt_int elapsed 2 then set_job_status running job
    else set_job_status queued job.

Definition create_poster_job (payload_headline : option string) (hex : string)
    (now : Z) (s : DemoDataStore) : Job * DemoDataStore :=
  let job := mkJob (_uid "poster_job" hex) queued None None payload_headline now in
  (job, set_poster_jobs (<[job_id job := job]> (poster_jobs s)) s).

Definition get_poster_job (jid : string) (now : Z) (s : DemoDataStore)
  : option Job * DemoDataStore :=
  match poster_jobs s !! jid with
  | None => (None, s)
  | Some job =>
      let job' := _progress_job job poster now in
      (Some job', set_poster_jobs (<[jid := job']> (poster_jobs s)) s)
  end.

Definition not_finished : string := "Job is not finished yet.".

Definition save_poster_job (jid hex : string) (s : DemoDataStore)
  : option string * DemoDataStore :=
  match poster_jobs s !! jid with
  | None => (None, s)
  | Some job =>
      if decide (job_status job <> succeeded) then
        (None,
         set_poster_jobs
           (<[jid := set_job_error (Some not_finished)
                       (set_job_status failed job)]> (poster_jobs s)) s)
      else
        let '(asset, s') :=
          create_asset (or_else (headline job) "Generated Poster") "poster"
            stores_0_id None None hex s in
        (Some (sa_id asset), s')
  end.

Definition create_menu_board_job (hex : string) (now : Z) (s : DemoDataStore)
  : Job * DemoDataStore :=
  let job := mkJob (_uid "menu_job" hex) queued None None None now in
  (job, set_menu_board_jobs (<[job_id job := job]> (menu_board_jobs s)) s).

Definition get_menu_board_job (jid : string) (now : Z) (s : DemoDataStore)
  : option Job * DemoDataStore :=
  match menu_board_jobs s !! jid with
  | None => (None, s)
  | Some job =>
      let job' := _progress_job job menu now in
      (Some job', set_menu_board_jobs (<[jid := job']> (menu_board_jobs s)) s)
  end.

Definition save_menu_board_job (jid hex : string) (s : DemoDataStore)
  : option string * DemoDataStore :=
  match menu_board_jobs s !! jid with
  | None => (None, s)
  | Some job =>
      if decide (job_status job <> succeeded) then
        (None,
         set_menu_board_jobs
           (<[jid := set_job_error (Some not_finished)
                       (set_job_status failed job)]> (menu_board_jobs s)) s)
      else
        let '(asset, s') :=
          create_asset "Menu Board" "menu" stores_0_id None None hex s in
        (Some (sa_id asset), s')
  end.

(** ** The save views

    [PosterGenerationSaveView.post] and [MenuBoardGenerationSaveView.post]
    for an authenticated request: 404 [job_not_found], 400 [job_not_ready],
    or 200 with the asset id. *)
Inductive SaveResponse :=
  | job_not_found
  | job_not_ready
  | saved (assetId : string).

Definition PosterGenerationSaveView_post (jid hex : string) (s : DemoDataStore)
  : SaveResponse * DemoDataStore :=
  match poster_jobs s !! jid with
  | None => (job_not_found, s)
  | Some _ =>
      let '(aid, s') := save_poster_job jid hex s in
      (if truthy aid then saved (or_else aid "") else job_not_ready, s')
  end.

Definition MenuBoardGenerationSaveView_post (jid hex : string)
    (s : DemoDataStore) : SaveResponse * DemoDataStore :=
  match menu_board_jobs s !! jid with
  | None => (job_not_found, s)
  | Some _ =>
      let '(aid, s') := save_menu_board_job jid hex s in
      (if truthy aid then saved (or_else aid "") else job_not_ready, s')
  end.

(** The operations of the interface, by job kind. *)
Definition jobs_of (kind : JobKind) (s : DemoDataStore) : gmap string Job :=
  match kind with
  | poster => poster_jobs s
  | menu => menu_board_jobs s
  end.

Definition GetJob (kind : JobKind) (jid : string) (now : Z) (s : DemoDataStore)
  : option Job * DemoDataStore :=
  match kind with
  | poster => get_poster_job jid now s
  | menu => get_menu_board_job jid now s
  end.

Definition SaveJob (kind : JobKind) (jid hex : string) (s : DemoDataStore)
  : SaveResponse * DemoDataStore :=
  match kind with
  | poster => PosterGenerationSaveView_post jid hex s
  | menu => MenuBoardGenerationSaveView_post jid hex s
  end.

(** ** Auxiliary definitions for the statements

    These describe what the source computes; they are not part of it. *)

(** The numbers that [_refresh_ingestion_progress] computes from [elapsed]
    before it caps them: [int((elapsed / total_time) * 100)] and
    [int(total_time - elapsed)]. *)
Definition scaled_progress (elapsed : Q) : Z :=
  int (float_mul (float_div elapsed (inject_Z total_time)) 100).

Definition remaining (elapsed : Q) : Z :=
  int (float_sub (inject_Z total_time) elapsed).




(** The same three computations on the primitive binary64 floats of Rocq,
    to compare [round64] with: a finite float denotes [m * 2^e]. *)
Module Binary64.

Import PrimFloat FloatOps SpecFloat.

Definition to_Q (f : float) : option Q :=
  match Prim2SF f with
  | S754_zero _ => Some 0%Q
  | S754_finite sign m e =>
      Some ((if sign then Qopp else id) (inject_Z (Z.pos m) * pow2 e)%Q)
  | _ => None
  end.

Definition of_Z (z : Z) : float :=
  match z with
  | Zneg _ => opp (of_uint63 (Uint63.of_Z (- z)))
  | _ => of_uint63 (Uint63.of_Z z)
  end.

Definition seconds (d : Z) : float := div (of_Z d) (of_Z 1000000).

Definition scaled (d : Z) : float := mul (div (seconds d) (of_Z 50)) (of_Z 100).

Definition left (d : Z) : float := sub (of_Z 50) (seconds d).

End Binary64.

Definition same_number (f : option Q) (x : Q) : bool :=
  match f with
  | Some y => Qeq_bool y x
  | None => false
  end.

(** At [d] microseconds the model and the primitive floats compute the same
    three numbers. *)
Definition agrees_with_binary64 (d : Z) : bool :=
  same_number (Binary64.to_Q (Binary64.seconds d)) (total_seconds d)
  && same_number (Binary64.to_Q (Binary64.scaled d))
       (float_mul (float_div (total_seconds d) (inject_Z total_time)) 100)
  && same_number (Binary64.to_Q (Binary64.left d))
       (float_sub (inject_Z total_time) (total_seconds d)).

(** Every half second of the first 50 with the microseconds next to it,
    every second likewise, and some times before the start and long after
    it. *)
Definition compared_instants : list Z :=
  ((Z.of_nat <$> seq 0 101) ≫=
     (fun n => [500000 * n - 1; 500000 * n; 500000 * n + 1]%Z))
  ++ [-1; -500000; -14500000; -86400000000; 1; 3; 7999999; 123456789;
      86400000000; 31536000000000; 315360000000000000]%Z.

(** The number of leading cutoffs that [elapsed] has reached: the value the
    loop leaves in [steps_completed]. *)
Fixpoint reached (elapsed : Q) (points : list Z) : nat :=
  match points with
  | [] => 0
  | cutoff :: rest => if ge_int elapsed cutoff then S (reached elapsed rest) else 0
  end.

Definition start_step (s : Step) : Step :=
  if decide (step_status s = pending) then set_step_status in_progress s else s.

(** What the loop started at [idx] over [n] cutoffs, [k] of them reached,
    does to the step at position [j]. *)
Definition touch (idx k n j : nat) (s : Step) : Step :=
  if decide (j < idx)%nat then s
  else if decide (j < idx + k)%nat then set_step_status completed s
  else if decide (j = (idx + k)%nat /\ (k < n)%nat) then start_step s
  else s.


(** The calls that mutate one ingestion after its creation: a read
    ([get_ingestion], which recomputes at the clock value [now]),
    [cancel_ingestion], [record_selection] and [finalize_ingestion]. *)
Inductive Op :=
  | Recompute (now : Z)
  | Cancel
  | RecordSelection (selected_ids : list string)
  | Finalize.

(** The effect of a call on the record it finds. *)
Definition apply_op (o : Op) (record : IngestionRecord)
  : option IngestionRecord :=
  match o with
  | Recompute now => _refresh_ingestion_progress record now
  | Cancel => Some (cancel_record record)
  | RecordSelection selected_ids => Some (select_record selected_ids record)
  | Finalize => Some (complete_record record)
  end.

Fixpoint run (ops : list Op) (record : IngestionRecord)
  : option IngestionRecord :=
  match ops with
  | [] => Some record
  | o :: rest =>
      match apply_op o record with
      | None => None
      | Some record' => run rest record'
      end
  end.

(** The same calls on the store, for the ingestion [ingestion_id]. *)
Definition perform (ingestion_id : string) (o : Op) (s : DemoDataStore)
  : option DemoDataStore :=
  match o with
  | Recompute now => snd <$> get_ingestion ingestion_id now s
  | Cancel => Some (cancel_ingestion ingestion_id s).2
  | RecordSelection selected_ids =>
      Some (record_selection ingestion_id selected_ids s).2
  | Finalize => Some (finalize_ingestion ingestion_id s).2
  end.

Fixpoint perform_all (ingestion_id : string) (ops : list Op)
    (s : DemoDataStore) : option DemoDataStore :=
  match ops with
  | [] => Some s
  | o :: rest =>
      match perform ingestion_id o s with
      | None => None
      | Some s' => perform_all ingestion_id rest s'
      end
  end.

(** The order in which a step's status may move. *)
Definition step_le (a b : Status) : bool :=
  match a, b with
  | pending, _ => true
  | in_progress, pending => false
  | in_progress, _ => true
  | canceled, canceled | canceled, completed => true
  | completed, completed => true
  | _, _ => false
  end.

(** Every step after one that is not completed is still pending. *)
Definition ordered_steps (l : list Step) : Prop :=
  forall i j si sj,
    (i < j)%nat -> l !! i = Some si -> l !! j = Some sj ->
    step_status si <> completed -> step_status sj = pending.

(** The two representations of the selection agree on [record]. *)
Definition selection_in_sync (record : IngestionRecord) : Prop :=
  forall g a, g ∈ asset_groups record -> a ∈ group_assets g ->
    (asset_selected a = true <-> asset_id a ∈ selected_asset_ids record).

(** Sample data for the examples. *)
Definition empty_store : DemoDataStore := mkStore ∅ ∅ ∅ ∅ ∅ ∅.

Definition sample_hex : string := "0123456789ab".

Definition sample_record : IngestionRecord := new_record "s1" sample_hex 0.

(** Repeated reads of one job at the clock values [times]. *)
Fixpoint progress_job_all (job : Job) (kind : JobKind) (times : list Z) : Job :=
  match times with
  | [] => job
  | now :: rest => progress_job_all (_progress_job job kind now) kind rest
  end.

Fixpoint get_job_all (kind : JobKind) (jid : string) (times : list Z)
    (s : DemoDataStore) : DemoDataStore :=
  match times with
  | [] => s
  | now :: rest => get_job_all kind jid rest (GetJob kind jid now s).2
  end.

Definition sample_job (st : JobStatus) : Job :=
  mkJob (_uid "poster_job" sample_hex) st None None (Some "Grand opening") 0.

Definition set_jobs (kind : JobKind) (m : gmap string Job) (s : DemoDataStore)
  : DemoDataStore :=
  match kind with
  | poster => set_poster_jobs m s
  | menu => set_menu_board_jobs m s
  end.



(** ** Further functions of the store

    The remaining operations of [DemoDataStore] on user state, the store
    catalogue and the assets, and [allow_no_trailing_slash] of [api/urls.py]. *)

(** [next((store for store in self.stores if store["id"] == store_id), None)]. *)
Definition get_store (sid : string) : option StoreInfo :=
  head (filter (fun store => si_id store = sid) stores).

Definition get_user_stores (user_id : Z) (s : DemoDataStore)
  : list StoreInfo * DemoDataStore :=
  let s1 := ensure_user_state user_id s in
  match user_store_links s1 !! user_id with
  | Some l =>
      let linked_ids : gset string := list_to_set l in
      (filter (fun store => si_id store ∈ linked_ids) stores, s1)
  | None => ([], s1)
  end.

Definition unlink_store (user_id : Z) (sid : string) (s : DemoDataStore)
  : DemoDataStore :=
  let s1 := ensure_user_state user_id s in
  match user_store_links s1 !! user_id with
  | Some l =>
      set_user_state (user_preferences s1)
        (<[user_id := filter (fun _id => _id <> sid) l]> (user_store_links s1))
        s1
  | None => s1
  end.

Definition get_default_store_id (user_id : Z) (s : DemoDataStore)
  : option string * DemoDataStore :=
  let s1 := ensure_user_state user_id s in
  (match user_store_links s1 !! user_id with
   | Some (first :: _) => Some first
   | _ => None
   end, s1).

Definition get_asset (aid : string) (s : DemoDataStore) : option StoredAsset :=
  assets s !! aid.

Definition delete_asset (aid : string) (s : DemoDataStore)
  : bool * DemoDataStore :=
  match assets s !! aid with
  | Some _ => (true, set_assets (delete aid (assets s)) s)
  | None => (false, s)
  end.

(** [list_assets]. The result is given as a list of the values of
    [self.assets]; its order, the insertion order of the dictionary, is not
    modelled, and the statements about it speak of membership only. *)
Definition list_assets (sid category : option string) (s : DemoDataStore)
  : list StoredAsset :=
  let all := (map_to_list (assets s)).*2 in
  let by_store :=
    if truthy sid
    then filter (fun asset => sa_storeId asset = or_else sid "") all
    else all in
  if truthy category && negb (String.eqb (or_else category "") "all")
  then filter (fun asset => sa_category asset = or_else category "") by_store
  else by_store.




(** ** Further auxiliary definitions for the statements *)

(** The status of a record and its steps fit together. *)
Definition consistent (record : IngestionRecord) : Prop :=
  match status record with
  | in_progress =>
      exists i s, steps record !! i = Some s /\ step_status s = in_progress
  | completed =>
      Forall (fun s => step_status s = completed) (steps record)
      /\ progress record = 100%Z
      /\ estimated_seconds_remaining record = 0%Z
  | canceled =>
      Forall (fun s => step_status s <> in_progress) (steps record)
      /\ (progress record <= 80)%Z
      /\ estimated_seconds_remaining record = 0%Z
  | pending => False
  end.

(** The numeric fields of a record are within their ranges. *)
Definition in_range (record : IngestionRecord) : Prop :=
  (0 <= progress record <= 100)%Z
  /\ (0 <= estimated_seconds_remaining record <= 90)%Z
  /\ (status record = in_progress ->
        (progress record <= 95)%Z
        /\ (10 <= estimated_seconds_remaining record)%Z).

(** The clock of every read in [ops] is not before [t0]. *)
Definition clock_from (t0 : Z) (ops : list Op) : Prop :=
  Forall (fun o => forall now, o = Recompute now -> (t0 <= now)%Z) ops.

(** Every stored asset carries the key it is stored under. *)
Definition assets_keyed (s : DemoDataStore) : Prop :=
  forall k a, assets s !! k = Some a -> sa_id a = k.


Definition sample_user : Z := 7.

(** The calls on one job after its creation: a read at the clock value
    [now] and a save. *)
Inductive JobOp :=
  | ReadJob (now : Z)
  | SaveJobOp (hex : string).

Definition job_call (kind : JobKind) (jid : string) (o : JobOp)
    (s : DemoDataStore) : DemoDataStore :=
  match o with
  | ReadJob now => (GetJob kind jid now s).2
  | SaveJobOp hex => (SaveJob kind jid hex s).2
  end.

Fixpoint job_calls (kind : JobKind) (jid : string) (ops : list JobOp)
    (s : DemoDataStore) : DemoDataStore :=
  match ops with
  | [] => s
  | o :: rest => job_calls kind jid rest (job_call kind jid o s)
  end.

(** [create_poster_job] or [create_menu_board_job], by job kind. *)
Definition StartJob (kind : JobKind) (payload_headline : option string)
    (hex : string) (now : Z) (s : DemoDataStore) : Job * DemoDataStore :=
  match kind with
  | poster => create_poster_job payload_headline hex now s
  | menu => create_menu_board_job hex now s
  end.

(** The result URL and the error of a job go with its status. *)
Definition job_consistent (job : Job) : Prop :=
  (job_status job = succeeded ->
     resultUrl job = Some (result_url_prefix +:+ job_id job))
  /\ (job_status job <> succeeded -> resultUrl job = None)
  /\ (job_status job = failed -> error job = Some not_finished)
  /\ (job_status job <> failed -> error job = None).
(** * Properties *)

(** ** Rounding to binary64 is monotone *)

Section Rounding.

Local Open Scope Q_scope.

Lemma pow2_pos (k : Z) : 0 < pow2 k.
Proof. apply Qpower_0_lt. reflexivity. Qed.

Lemma pow2_le (k1 k2 : Z) : (k1 <= k2)%Z -> pow2 k1 <= pow2 k2.
Proof. intros H. apply Qpower_le_compat_l; [exact H | discriminate]. Qed.

Lemma pow2_lt_inv (k1 k2 : Z) : pow2 k1 < pow2 k2 -> (k1 < k2)%Z.
Proof. intros H. apply (Qpower_lt_compat_l_inv 2); [exact H | reflexivity]. Qed.

Lemma pow2_plus (a b : Z) : pow2 (a + b) == pow2 a * pow2 b.
Proof. apply Qpower_plus. discriminate. Qed.

Lemma pow2_sub (p q : Z) :
  (0 <= p)%Z -> (0 <= q)%Z -> pow2 (p - q) == (2 ^ p # Z.to_pos (2 ^ q)).
Proof.
  intros Hp Hq. unfold Z.sub. rewrite pow2_plus. unfold pow2.
  change 2 with (inject_Z 2).
  rewrite Qpower_opp, <- !Zpower_Qpower by assumption.
  rewrite (Qmake_Qdiv (2 ^ p)). rewrite Z2Pos.id by (apply Z.pow_pos_nonneg; lia).
  reflexivity.
Qed.

Lemma Qlog2_spec (x : Q) :
  0 < x -> pow2 (Qlog2 x) <= x /\ x < pow2 (Qlog2 x + 1).
Proof.
  intros Hx. unfold Qlog2.
  set (a := Z.log2 (Qnum x)). set (b := Z.log2 (Z.pos (Qden x))).
  assert (0 < Qnum x)%Z as Hn by (unfold Qlt in Hx; simpl in Hx; lia).
  pose proof (Z.log2_spec _ Hn) as [Ha1 Ha2]. fold a in Ha1, Ha2.
  pose proof (Z.log2_spec (Z.pos (Qden x)) eq_refl) as [Hb1 Hb2].
  fold b in Hb1, Hb2.
  assert (0 <= a)%Z as Ha0 by apply Z.log2_nonneg.
  assert (0 <= b)%Z as Hb0 by apply Z.log2_nonneg.
  assert (0 < 2 ^ a)%Z as Hpa by (apply Z.pow_pos_nonneg; lia).
  assert (0 < 2 ^ b)%Z as Hpb by (apply Z.pow_pos_nonneg; lia).
  assert (x < pow2 (a - b + 1)) as Hup.
  { replace (a - b + 1)%Z with (Z.succ a - b)%Z by lia.
    rewrite pow2_sub by lia. unfold Qlt. simpl.
    rewrite Z2Pos.id by assumption. nia. }
  assert (pow2 (a - b - 1) <= x) as Hlow.
  { replace (a - b - 1)%Z with (a - Z.succ b)%Z by lia.
    rewrite pow2_sub by lia. unfold Qle. simpl.
    rewrite Z2Pos.id by (apply Z.pow_pos_nonneg; lia). nia. }
  destruct (Qle_bool (pow2 (a - b)) x) eqn:Hle.
  - apply Qle_bool_iff in Hle. split; assumption.
  - split; [exact Hlow |].
    replace (a - b - 1 + 1)%Z with (a - b)%Z by lia.
    apply Qnot_le_lt. intros H. apply Qle_bool_iff in H. congruence.
Qed.

Lemma Qlog2_mono (x y : Q) : 0 < x -> x <= y -> (Qlog2 x <= Qlog2 y)%Z.
Proof.
  intros Hx Hxy.
  destruct (Qlog2_spec x Hx) as [Hx1 _].
  destruct (Qlog2_spec y) as [_ Hy2]; [eapply Qlt_le_trans; eassumption |].
  assert (pow2 (Qlog2 x) < pow2 (Qlog2 y + 1)) as H.
  { eapply Qle_lt_trans; [exact Hx1 |]. eapply Qle_lt_trans; eassumption. }
  apply pow2_lt_inv in H. lia.
Qed.

Lemma round_half_even_bounds (q : Q) :
  (Qfloor q <= round_half_even q <= Qfloor q + 1)%Z.
Proof.
  unfold round_half_even.
  destruct (_ ?= _); [destruct (Z.even _) | |]; lia.
Qed.

Lemma round_half_even_Z (n : Z) : round_half_even (inject_Z n) = n.
Proof.
  unfold round_half_even. rewrite Qfloor_Z.
  generalize (inject_Z n). intros q.
  destruct (Qcompare_spec (q - q) (1 # 2)); [exfalso; lra | reflexivity | exfalso; lra].
Qed.

Lemma round_half_even_mono (x y : Q) :
  x <= y -> (round_half_even x <= round_half_even y)%Z.
Proof.
  intros Hxy. pose proof (Qfloor_resp_le x y Hxy) as Hf.
  destruct (decide (Qfloor x = Qfloor y)) as [Heq | Hne].
  - unfold round_half_even. rewrite <- Heq.
    generalize dependent (inject_Z (Qfloor x)). intros f.
    destruct (Qcompare_spec (x - f) (1 # 2));
      destruct (Qcompare_spec (y - f) (1 # 2));
      try destruct (Z.even _); try lia; exfalso; lra.
  - pose proof (round_half_even_bounds x). pose proof (round_half_even_bounds y).
    lia.
Qed.

Lemma round64_pos_bounds (x : Q) :
  0 < x ->
  pow2 (Qlog2 x) <= round64_pos x /\ round64_pos x <= pow2 (Qlog2 x + 1).
Proof.
  intros Hx. destruct (Qlog2_spec x Hx) as [H1 H2].
  unfold round64_pos. set (k := Qlog2 x) in *. set (e := (k - 52)%Z).
  pose proof (pow2_pos e) as He.
  assert (pow2 k == inject_Z (2 ^ 52) * pow2 e) as Hk.
  { replace k with (52 + e)%Z by (unfold e; lia).
    rewrite pow2_plus. reflexivity. }
  assert (pow2 (k + 1) == inject_Z (2 ^ 53) * pow2 e) as Hk1.
  { replace (k + 1)%Z with (53 + e)%Z by (unfold e; lia).
    rewrite pow2_plus. reflexivity. }
  rewrite Hk, Hk1. rewrite Hk in H1. rewrite Hk1 in H2.
  split; (apply Qmult_le_compat_r; [| apply Qlt_le_weak; exact He]);
    rewrite <- Zle_Qle.
  - rewrite <- (round_half_even_Z (2 ^ 52)) at 1.
    apply round_half_even_mono. apply Qle_shift_div_l; assumption.
  - rewrite <- (round_half_even_Z (2 ^ 53)).
    apply round_half_even_mono. apply Qle_shift_div_r; [assumption |].
    apply Qlt_le_weak; assumption.
Qed.

Lemma round64_pos_pos (x : Q) : 0 < x -> 0 < round64_pos x.
Proof.
  intros Hx. eapply Qlt_le_trans; [apply (pow2_pos (Qlog2 x)) |].
  apply round64_pos_bounds, Hx.
Qed.

Lemma round64_pos_mono (x y : Q) :
  0 < x -> x <= y -> round64_pos x <= round64_pos y.
Proof.
  intros Hx Hxy.
  assert (0 < y) as Hy by (eapply Qlt_le_trans; eassumption).
  pose proof (Qlog2_mono x y Hx Hxy) as Hlog.
  destruct (decide (Qlog2 x = Qlog2 y)) as [Heq | Hne].
  - unfold round64_pos. rewrite Heq.
    pose proof (pow2_pos (Qlog2 y - 52)) as He.
    apply Qmult_le_compat_r; [| apply Qlt_le_weak; exact He].
    rewrite <- Zle_Qle. apply round_half_even_mono.
    apply Qmult_le_compat_r; [exact Hxy |].
    apply Qlt_le_weak, Qinv_lt_0_compat, He.
  - destruct (round64_pos_bounds x Hx) as [_ Hx2].
    destruct (round64_pos_bounds y Hy) as [Hy1 _].
    eapply Qle_trans; [exact Hx2 |]. eapply Qle_trans; [| exact Hy1].
    apply pow2_le. lia.
Qed.

Lemma Qnum_pos (x : Q) (p : positive) : Qnum x = Z.pos p -> 0 < x.
Proof. intros H. unfold Qlt. simpl. lia. Qed.

Lemma Qnum_neg (x : Q) (p : positive) : Qnum x = Z.neg p -> 0 < - x.
Proof. intros H. unfold Qlt. simpl. lia. Qed.

Lemma Qnum_zero (x : Q) : Qnum x = 0%Z -> x == 0.
Proof. intros H. unfold Qeq. simpl. lia. Qed.

(** Rounding preserves order: a larger real rounds to a larger or equal
    binary64 number. *)
Lemma round64_mono (x y : Q) : x <= y -> round64 x <= round64 y.
Proof.
  intros Hxy. unfold round64.
  destruct (Qnum x) as [| p | p] eqn:Hx; destruct (Qnum y) as [| q | q] eqn:Hy;
    try apply Qnum_zero in Hx; try apply Qnum_zero in Hy;
    try apply Qnum_pos in Hx; try apply Qnum_pos in Hy;
    try apply Qnum_neg in Hx; try apply Qnum_neg in Hy;
    try (exfalso; lra).
  - apply Qle_refl.
  - apply Qlt_le_weak, round64_pos_pos, Hy.
  - apply round64_pos_mono; assumption.
  - pose proof (round64_pos_pos _ Hx). lra.
  - pose proof (round64_pos_pos _ Hx). pose proof (round64_pos_pos _ Hy). lra.
  - apply Qopp_le_compat. apply round64_pos_mono; [exact Hy | lra].
Qed.

#[global] Instance round64_compat : Proper (Qeq ==> Qeq) round64.
Proof.
  intros x y Hxy. apply Qle_antisym; apply round64_mono; rewrite Hxy; apply Qle_refl.
Qed.

End Rounding.

(** The model of binary64 and the primitive floats agree at every instant
    of [compared_instants], among them all those from which
    [scaled_progress_exact] and [remaining_exact] below are derived. *)
Lemma round64_agrees_with_binary64 :
  forallb agrees_with_binary64 compared_instants = true.
Proof. vm_compute. reflexivity. Qed.

(** ** Comparisons and truncation *)

Section Numbers.

Lemma ge_int_true (x : Q) (c : Z) :
  ge_int x c = true <-> (inject_Z c <= x)%Q.
Proof. unfold ge_int. apply Qle_bool_iff. Qed.

Lemma ge_int_false (x : Q) (c : Z) :
  ge_int x c = false <-> (x < inject_Z c)%Q.
Proof.
  unfold ge_int. rewrite <- not_true_iff_false, Qle_bool_iff.
  split; [apply Qnot_le_lt | apply Qlt_not_le].
Qed.

Lemma gt_int_true (x : Q) (c : Z) :
  gt_int x c = true <-> (inject_Z c < x)%Q.
Proof.
  unfold gt_int. rewrite negb_true_iff, <- not_true_iff_false, Qle_bool_iff.
  split; [apply Qnot_le_lt | apply Qlt_not_le].
Qed.


(** On non-negative numbers [int] is the floor. *)
Lemma int_floor (x : Q) : (0 <= x)%Q -> int x = Qfloor x.
Proof.
  destruct x as [n d]. unfold Qle, int, Qfloor. simpl. intros Hn.
  apply Z.quot_div_nonneg; lia.
Qed.

(** On non-positive numbers it is the ceiling. *)
Lemma int_ceiling (x : Q) : (x <= 0)%Q -> int x = Qceiling x.
Proof.
  destruct x as [n d]. unfold Qle, int, Qceiling, Qfloor. simpl. intros Hn.
  replace n with (- (- n))%Z at 1 by lia.
  rewrite Z.quot_opp_l by lia. f_equal.
  apply Z.quot_div_nonneg; lia.
Qed.

Lemma int_mono (x y : Q) : (x <= y)%Q -> (int x <= int y)%Z.
Proof.
  intros Hxy.
  destruct (Qlt_le_dec x 0) as [Hx | Hx].
  - destruct (Qlt_le_dec y 0) as [Hy | Hy].
    + rewrite !int_ceiling by (apply Qlt_le_weak; assumption).
      apply Qceiling_resp_le, Hxy.
    + rewrite (int_ceiling x) by (apply Qlt_le_weak; assumption).
      rewrite (int_floor y) by assumption.
      transitivity 0%Z.
      * change 0%Z with (Qceiling 0). apply Qceiling_resp_le.
        apply Qlt_le_weak; assumption.
      * change 0%Z with (Qfloor 0). apply Qfloor_resp_le; assumption.
  - rewrite !int_floor; [apply Qfloor_resp_le, Hxy | | assumption].
    eapply Qle_trans; eassumption.
Qed.

Lemma total_seconds_mono (d1 d2 : Z) :
  (d1 <= d2)%Z -> (total_seconds d1 <= total_seconds d2)%Q.
Proof. intros H. apply round64_mono. unfold Qle. simpl. lia. Qed.

(** Where rounding is exact at [c] seconds and does not reach [c] one
    microsecond earlier, the float compares with [c] as the exact number of
    seconds does. *)
Lemma total_seconds_ge_gen (c d : Z) :
  Qle_bool (inject_Z c) (total_seconds (c * 1000000)) = true ->
  Qle_bool (inject_Z c) (total_seconds (c * 1000000 - 1)) = false ->
  ((inject_Z c <= total_seconds d)%Q <-> (c * 1000000 <= d)%Z).
Proof.
  intros Hat Hbefore. apply Qle_bool_iff in Hat.
  split.
  - intros Hle. destruct (decide (c * 1000000 <= d)%Z) as [| Hlt]; [assumption |].
    exfalso. assert (Qle_bool (inject_Z c) (total_seconds (c * 1000000 - 1)) = true);
      [| congruence].
    apply Qle_bool_iff. eapply Qle_trans; [exact Hle |].
    apply total_seconds_mono. lia.
  - intros Hle. eapply Qle_trans; [exact Hat |]. by apply total_seconds_mono.
Qed.

Lemma total_seconds_gt_gen (c d : Z) :
  Qle_bool (total_seconds (c * 1000000)) (inject_Z c) = true ->
  Qle_bool (total_seconds (c * 1000000 + 1)) (inject_Z c) = false ->
  ((inject_Z c < total_seconds d)%Q <-> (c * 1000000 < d)%Z).
Proof.
  intros Hat Hafter. apply Qle_bool_iff in Hat.
  split.
  - intros Hlt. destruct (decide (c * 1000000 < d)%Z) as [| Hle]; [assumption |].
    exfalso. apply (Qlt_not_le _ _ Hlt).
    eapply Qle_trans; [| exact Hat]. apply total_seconds_mono. lia.
  - intros Hlt. apply Qnot_le_lt. intros Hle.
    assert (Qle_bool (total_seconds (c * 1000000 + 1)) (inject_Z c) = true);
      [| congruence].
    apply Qle_bool_iff. eapply Qle_trans; [| exact Hle].
    apply total_seconds_mono. lia.
Qed.

(** The cutoffs of the ingestion engine are compared exactly. *)
Lemma elapsed_since_ge (t now c : Z) :
  c ∈ progress_points ->
  ((inject_Z c <= elapsed_since t now)%Q <-> (t + c * 1000000 <= now)%Z).
Proof.
  intros Hc. unfold elapsed_since.
  assert ((inject_Z c <= total_seconds (now - t))%Q
          <-> (c * 1000000 <= now - t)%Z) as ->; [| lia].
  change progress_points with [8; 18; 30; 50]%Z in Hc.
  repeat (apply elem_of_cons in Hc as [-> | Hc];
          [apply total_seconds_ge_gen; vm_compute; reflexivity |]).
  by apply elem_of_nil in Hc.
Qed.

(** So are the thresholds of the job engine. *)
Lemma elapsed_since_gt (t now c : Z) :
  c ∈ [2; 10]%Z ->
  ((inject_Z c < elapsed_since t now)%Q <-> (t + c * 1000000 < now)%Z).
Proof.
  intros Hc. unfold elapsed_since.
  assert ((inject_Z c < total_seconds (now - t))%Q
          <-> (c * 1000000 < now - t)%Z) as ->; [| lia].
  repeat (apply elem_of_cons in Hc as [-> | Hc];
          [apply total_seconds_gt_gen; vm_compute; reflexivity |]).
  by apply elem_of_nil in Hc.
Qed.

Lemma elapsed_since_mono (t now1 now2 : Z) :
  (now1 <= now2)%Z -> (elapsed_since t now1 <= elapsed_since t now2)%Q.
Proof. intros H. apply total_seconds_mono. lia. Qed.

Lemma elapsed_since_nonneg (t now : Z) :
  (t <= now)%Z -> (0 <= elapsed_since t now)%Q.
Proof.
  intros H. change 0%Q with (total_seconds 0). apply total_seconds_mono. lia.
Qed.

Lemma round64_nonneg (x : Q) : (0 <= x)%Q -> (0 <= round64 x)%Q.
Proof. intros H. change 0%Q with (round64 0). by apply round64_mono. Qed.

Lemma scaled_progress_mono (x y : Q) :
  (x <= y)%Q -> (scaled_progress x <= scaled_progress y)%Z.
Proof.
  intros Hxy. unfold scaled_progress, float_mul, float_div.
  apply int_mono, round64_mono.
  apply Qmult_le_compat_r; [| unfold Qle; simpl; lia].
  apply round64_mono.
  apply Qmult_le_compat_r; [exact Hxy | unfold Qle; simpl; lia].
Qed.

Lemma scaled_progress_nonneg (x : Q) :
  (0 <= x)%Q -> (0 <= scaled_progress x)%Z.
Proof.
  intros H. change 0%Z with (scaled_progress 0) at 1.
  by apply scaled_progress_mono.
Qed.

Lemma remaining_anti (x y : Q) :
  (x <= y)%Q -> (remaining y <= remaining x)%Z.
Proof.
  intros Hxy. unfold remaining, float_sub.
  apply int_mono, round64_mono. generalize (inject_Z total_time). intros c. lra.
Qed.



End Numbers.

(** ** The step loop *)

Section StepLoop.

Variable elapsed : Q.

Lemma refresh_steps_lookup (points : list Z) :
  forall (idx : nat) (l : list Step),
    (idx + length points <= length l)%nat ->
    exists l', refresh_steps elapsed idx points l = Some l'
      /\ length l' = length l
      /\ forall j s, l !! j = Some s ->
           l' !! j = Some (touch idx (reached elapsed points) (length points) j s).
Proof.
  induction points as [| cutoff rest IH]; intros idx l Hlen; simpl in *.
  - exists l. repeat split; [].
    intros j s Hj. rewrite Hj. f_equal. unfold touch.
    repeat case_decide; try lia; reflexivity.
  - destruct (lookup_lt_is_Some_2 l idx ltac:(lia)) as [s0 Hs0].
    rewrite Hs0. destruct (ge_int elapsed cutoff) eqn:Hge.
    + destruct (IH (S idx) (<[idx := set_step_status completed s0]> l))
        as (l' & Hrun & Hl' & Hlook).
      { rewrite length_insert. lia. }
      exists l'. rewrite length_insert in Hl'. repeat split; try assumption.
      intros j s Hj. destruct (decide (j = idx)) as [-> | Hne].
      * assert (s = s0) as -> by congruence.
        rewrite (Hlook idx (set_step_status completed s0)).
        2:{ apply list_lookup_insert_eq. eapply lookup_lt_Some; eassumption. }
        f_equal. unfold touch. repeat case_decide; try lia; reflexivity.
      * rewrite (Hlook j s).
        2:{ rewrite list_lookup_insert_ne by congruence. assumption. }
        f_equal. unfold touch. repeat case_decide; try lia; reflexivity.
    + eexists. split; [reflexivity |]. split.
      * case_decide; [apply length_insert | reflexivity].
      * intros j s Hj. unfold touch.
        destruct (decide (j = idx)) as [-> | Hne].
        -- assert (s = s0) as -> by congruence. unfold start_step.
           repeat case_decide; try lia; try assumption.
           apply list_lookup_insert_eq. eapply lookup_lt_Some; eassumption.
        -- repeat case_decide; try lia;
             rewrite ?list_lookup_insert_ne by congruence; assumption.
Qed.

Lemma progress_points_eq : progress_points = [8; 18; 30; 50]%Z.
Proof. reflexivity. Qed.

Lemma total_time_eq : total_time = 50%Z.
Proof. reflexivity. Qed.

(** For the cutoffs of the source, which increase, a cutoff is reached
    exactly when its position is below [reached]. *)
Lemma reached_progress_points (i : nat) (c : Z) :
  progress_points !! i = Some c ->
  ((inject_Z c <= elapsed)%Q <-> (i < reached elapsed progress_points)%nat).
Proof.
  rewrite progress_points_eq. intros Hi. simpl.
  destruct (ge_int elapsed 8) eqn:H8;
    [destruct (ge_int elapsed 18) eqn:H18;
      [destruct (ge_int elapsed 30) eqn:H30;
        [destruct (ge_int elapsed 50) eqn:H50 | ] | ] | ];
    rewrite ?ge_int_true, ?ge_int_false in *;
    destruct i as [| [| [| [| i]]]]; simplify_eq/=;
    unfold inject_Z in *; split; intros; try lia; try lra.
Qed.

End StepLoop.

(** ** Recomputation of an ingestion record *)

Section Refresh.

Variables (record : IngestionRecord) (now : Z).

Let elapsed : Q := elapsed_since (started_at record) now.

Lemma refresh_frozen :
  status record <> in_progress ->
  _refresh_ingestion_progress record now = Some record.
Proof.
  intros Hst. unfold _refresh_ingestion_progress.
  case_decide; [reflexivity | contradiction].
Qed.

(** With four steps the loop does not raise, and the record it leaves is
    described position by position. *)
Lemma refresh_running :
  status record = in_progress ->
  length (steps record) = 4%nat ->
  exists l,
    refresh_steps elapsed 0 progress_points (steps record) = Some l
    /\ length l = 4%nat
    /\ (forall j s, steps record !! j = Some s ->
          l !! j = Some (touch 0 (reached elapsed progress_points) 4 j s))
    /\ _refresh_ingestion_progress record now =
         Some (if ge_int elapsed total_time then
                 set_summary completed 100 0
                   (set_steps (set_step_status completed <$> l) record)
               else
                 set_summary in_progress
                   (Z.min 95 (scaled_progress elapsed))
                   (Z.max 10 (remaining elapsed))
                   (set_steps l record)).
Proof.
  intros Hst Hlen.
  destruct (refresh_steps_lookup elapsed progress_points 0 (steps record))
    as (l & Hrun & Hl & Hlook).
  { rewrite Hlen. reflexivity. }
  exists l. split; [exact Hrun |]. split; [congruence |].
  split; [exact Hlook |].
  unfold _refresh_ingestion_progress. fold elapsed.
  case_decide; [congruence |]. rewrite Hrun.
  destruct (ge_int elapsed total_time); rewrite ?Hst; reflexivity.
Qed.

End Refresh.










(** The formula of the claim for progress fails 14.5 seconds after the
    start: the code leaves 28 where the floor of [14.5 / 50 * 100] is 29. *)
Lemma refresh_progress_is_not_floor :
  exists record',
    _refresh_ingestion_progress sample_record 14500000 = Some record'
    /\ progress record' = 28%Z
    /\ Z.min 95 (Qfloor ((14500000 # 1000000) / 50 * 100)%Q) = 29%Z.
Proof.
  eexists. split; [vm_compute; reflexivity |]. split; reflexivity.
Qed.


(** ** Histories: what every call preserves *)

Lemma step_le_refl (a : Status) : step_le a a = true.
Proof. destruct a; reflexivity. Qed.

Lemma step_le_trans (a b c : Status) :
  step_le a b = true -> step_le b c = true -> step_le a c = true.
Proof. destruct a, b, c; simpl; congruence. Qed.

Lemma touch_status (idx k n j : nat) (s : Step) :
  step_le (step_status s) (step_status (touch idx k n j s)) = true
  /\ step_le (step_status s)
       (step_status (set_step_status completed (touch idx k n j s))) = true.
Proof.
  unfold touch, start_step.
  repeat case_decide; destruct (step_status s) eqn:E; simpl; rewrite ?E; auto;
    congruence.
Qed.

(** A recomputation that does not raise keeps the number of steps and moves
    every step forward in [step_le]. *)
Lemma refresh_steps_forward (record record' : IngestionRecord) (now : Z) :
  length (steps record) = 4%nat ->
  _refresh_ingestion_progress record now = Some record' ->
  length (steps record') = 4%nat
  /\ forall i s, steps record !! i = Some s ->
       exists s', steps record' !! i = Some s'
         /\ step_le (step_status s) (step_status s') = true.
Proof.
  intros Hlen Hrun.
  destruct (decide (status record = in_progress)) as [Hst | Hst].
  - destruct (refresh_running record now Hst Hlen) as (l & _ & Hl & Hlook & Heq).
    rewrite Heq in Hrun. injection Hrun as <-.
    destruct (ge_int _ total_time); simpl.
    + split; [by rewrite length_fmap |].
      intros i s Hs. eexists. rewrite list_lookup_fmap, (Hlook i s Hs). simpl.
      split; [reflexivity |]. apply touch_status.
    + split; [exact Hl |]. intros i s Hs. eexists.
      split; [apply (Hlook i s Hs) |]. apply touch_status.
  - rewrite refresh_frozen in Hrun by assumption. injection Hrun as <-.
    split; [exact Hlen |]. intros i s Hs. exists s.
    split; [exact Hs | apply step_le_refl].
Qed.

Lemma refresh_total (record : IngestionRecord) (now : Z) :
  length (steps record) = 4%nat ->
  is_Some (_refresh_ingestion_progress record now).
Proof.
  intros Hlen.
  destruct (decide (status record = in_progress)) as [Hst | Hst].
  - destruct (refresh_running record now Hst Hlen) as (l & _ & _ & _ & Heq).
    rewrite Heq. eauto.
  - rewrite refresh_frozen by assumption. eauto.
Qed.

Lemma refresh_keeps_ordered (record record' : IngestionRecord) (now : Z) :
  length (steps record) = 4%nat ->
  ordered_steps (steps record) ->
  _refresh_ingestion_progress record now = Some record' ->
  ordered_steps (steps record').
Proof.
  intros Hlen Hord Hrun.
  destruct (decide (status record = in_progress)) as [Hst | Hst].
  2:{ rewrite refresh_frozen in Hrun by assumption. by injection Hrun as <-. }
  destruct (refresh_running record now Hst Hlen) as (l & _ & Hl & Hlook & Heq).
  rewrite Heq in Hrun. injection Hrun as <-.
  assert (forall i s', l !! i = Some s' ->
            exists s, steps record !! i = Some s) as Hback.
  { intros i s' Hi. apply lookup_lt_is_Some_2.
    apply lookup_lt_Some in Hi. lia. }
  destruct (ge_int _ total_time);
    [change (ordered_steps (set_step_status completed <$> l))
    | change (ordered_steps l)].
  - intros i j si sj _ Hi _ Hnc. apply list_lookup_fmap_Some in Hi.
    destruct Hi as (s & -> & _). simpl in Hnc. congruence.
  - intros i j si sj Hij Hi Hj Hnc.
    pose proof (Hback i si Hi) as [ti Hti].
    pose proof (Hback j sj Hj) as [tj Htj].
    rewrite (Hlook i ti Hti) in Hi. rewrite (Hlook j tj Htj) in Hj.
    injection Hi as <-. injection Hj as <-.
    revert Hnc. unfold touch, start_step.
    repeat case_decide; simpl; intros Hnc; try lia; try congruence;
      eapply (Hord i j); eauto; congruence.
Qed.

Section Calls.

Variables (o : Op) (record record' : IngestionRecord).
Hypothesis Hlen : length (steps record) = 4%nat.
Hypothesis Hcall : apply_op o record = Some record'.

Lemma apply_op_length : length (steps record') = 4%nat.
Proof.
  destruct o; simpl in Hcall.
  - by apply (refresh_steps_forward record record' now).
  - injection Hcall as <-. simpl. by rewrite length_fmap.
  - by injection Hcall as <-.
  - injection Hcall as <-. simpl. by rewrite length_fmap.
Qed.

Lemma apply_op_forward (i : nat) (s : Step) :
  steps record !! i = Some s ->
  exists s', steps record' !! i = Some s'
    /\ step_le (step_status s) (step_status s') = true.
Proof.
  intros Hs. destruct o; simpl in Hcall.
  - by apply (refresh_steps_forward record record' now).
  - injection Hcall as <-. simpl. eexists.
    rewrite list_lookup_fmap, Hs. split; [reflexivity |].
    case_decide as E; simpl; [by rewrite E | apply step_le_refl].
  - injection Hcall as <-. exists s. split; [exact Hs | apply step_le_refl].
  - injection Hcall as <-. simpl. eexists.
    rewrite list_lookup_fmap, Hs. split; [reflexivity |].
    by destruct (step_status s).
Qed.

Lemma apply_op_ordered :
  ordered_steps (steps record) -> ordered_steps (steps record').
Proof.
  intros Hord. destruct o; simpl in Hcall.
  - by apply (refresh_keeps_ordered record record' now).
  - injection Hcall as <-. simpl. intros i j si sj Hij Hi Hj Hnc.
    apply list_lookup_fmap_Some in Hi. destruct Hi as (ti & -> & Hti).
    apply list_lookup_fmap_Some in Hj. destruct Hj as (tj & -> & Htj).
    assert (step_status tj = pending) as Hp.
    { apply (Hord i j ti tj Hij Hti Htj). intros E. apply Hnc.
      destruct (decide (step_status ti = in_progress)); [congruence | exact E]. }
    destruct (decide (step_status tj = in_progress)); [congruence | exact Hp].
  - by injection Hcall as <-.
  - injection Hcall as <-. simpl. intros i j si sj _ Hi _ Hnc.
    apply list_lookup_fmap_Some in Hi. destruct Hi as (ti & -> & _).
    simpl in Hnc. congruence.
Qed.

Lemma apply_op_left : status record <> in_progress -> status record' <> in_progress.
Proof.
  intros Hst. destruct o; simpl in Hcall.
  - rewrite refresh_frozen in Hcall by assumption. by injection Hcall as <-.
  - by injection Hcall as <-.
  - by injection Hcall as <-.
  - by injection Hcall as <-.
Qed.

End Calls.

Lemma apply_op_total (o : Op) (record : IngestionRecord) :
  length (steps record) = 4%nat -> is_Some (apply_op o record).
Proof.
  intros Hlen. destruct o; simpl; eauto. by apply refresh_total.
Qed.

Lemma run_total (ops : list Op) :
  forall record, length (steps record) = 4%nat ->
    exists record', run ops record = Some record'
      /\ length (steps record') = 4%nat
      /\ (ordered_steps (steps record) -> ordered_steps (steps record'))
      /\ (status record <> in_progress -> status record' <> in_progress)
      /\ forall i s, steps record !! i = Some s ->
           exists s', steps record' !! i = Some s'
             /\ step_le (step_status s) (step_status s') = true.
Proof.
  induction ops as [| o rest IH]; intros record Hlen; simpl.
  - exists record. repeat split; auto.
    intros i s Hs. exists s. split; [exact Hs | apply step_le_refl].
  - destruct (apply_op_total o record Hlen) as [r1 Hr1]. rewrite Hr1.
    pose proof (apply_op_length o record r1 Hlen Hr1) as Hlen1.
    destruct (IH r1 Hlen1) as (r2 & Hrun & Hlen2 & Hord & Hleft & Hfwd).
    exists r2. split; [exact Hrun |]. split; [exact Hlen2 |].
    split; [| split].
    + intros H. apply Hord. by apply (apply_op_ordered o record r1).
    + intros H. apply Hleft. by apply (apply_op_left o record r1).
    + intros i s Hs.
      destruct (apply_op_forward o record r1 Hlen Hr1 i s Hs) as (s1 & Hs1 & Hle1).
      destruct (Hfwd i s1 Hs1) as (s2 & Hs2 & Hle2).
      exists s2. split; [exact Hs2 |]. eapply step_le_trans; eassumption.
Qed.

(** ** The calls on the store and on the record agree *)

Lemma ensure_user_state_fields (user_id : Z) (s : DemoDataStore) :
  ingestions (ensure_user_state user_id s) = ingestions s
  /\ assets (ensure_user_state user_id s) = assets s
  /\ poster_jobs (ensure_user_state user_id s) = poster_jobs s
  /\ menu_board_jobs (ensure_user_state user_id s) = menu_board_jobs s.
Proof. repeat split. Qed.

Lemma link_store_fields (user_id : Z) (sid : string) (s : DemoDataStore) :
  ingestions (link_store user_id sid s) = ingestions s
  /\ assets (link_store user_id sid s) = assets s
  /\ poster_jobs (link_store user_id sid s) = poster_jobs s
  /\ menu_board_jobs (link_store user_id sid s) = menu_board_jobs s.
Proof.
  unfold link_store.
  destruct (user_store_links (ensure_user_state user_id s) !! user_id);
    [case_decide |]; repeat split.
Qed.

Lemma link_store_for_asset_fields (sid : string) (s : DemoDataStore) :
  ingestions (link_store_for_asset sid s) = ingestions s
  /\ assets (link_store_for_asset sid s) = assets s
  /\ poster_jobs (link_store_for_asset sid s) = poster_jobs s
  /\ menu_board_jobs (link_store_for_asset sid s) = menu_board_jobs s.
Proof.
  unfold link_store_for_asset.
  generalize ((map_to_list (user_store_links s)).*1). intros users.
  revert s. induction users as [| u users IH]; intros s; simpl.
  - repeat split.
  - destruct (IH (link_store u sid s)) as (-> & -> & -> & ->).
    apply link_store_fields.
Qed.

Lemma perform_lookup (iid : string) (o : Op) (s : DemoDataStore)
    (record : IngestionRecord) :
  ingestions s !! iid = Some record ->
  match apply_op o record with
  | Some record' =>
      exists s', perform iid o s = Some s' /\ ingestions s' !! iid = Some record'
  | None => perform iid o s = None
  end.
Proof.
  intros Hrec. destruct o; simpl.
  - unfold get_ingestion. rewrite Hrec.
    destruct (_refresh_ingestion_progress record now); simpl; [| reflexivity].
    eexists. split; [reflexivity |]. simpl. apply lookup_insert_eq.
  - unfold cancel_ingestion. rewrite Hrec. eexists. split; [reflexivity |].
    simpl. apply lookup_insert_eq.
  - unfold record_selection. rewrite Hrec. eexists. split; [reflexivity |].
    simpl. apply lookup_insert_eq.
  - unfold finalize_ingestion. rewrite Hrec. eexists. split; [reflexivity |].
    cbn [snd fst].
    match goal with
    | |- ingestions (link_store_for_asset ?a ?b) !! _ = _ =>
        rewrite (proj1 (link_store_for_asset_fields a b))
    end.
    simpl. apply lookup_insert_eq.
Qed.

Lemma perform_all_run (iid : string) (ops : list Op) :
  forall (s : DemoDataStore) (record : IngestionRecord),
    ingestions s !! iid = Some record ->
    match run ops record with
    | Some record' =>
        exists s', perform_all iid ops s = Some s'
                   /\ ingestions s' !! iid = Some record'
    | None => perform_all iid ops s = None
    end.
Proof.
  induction ops as [| o rest IH]; intros s record Hrec; simpl.
  - eauto.
  - pose proof (perform_lookup iid o s record Hrec) as Hstep.
    destruct (apply_op o record) as [r1 |].
    + destruct Hstep as (s1 & -> & Hr1). apply (IH s1 r1 Hr1).
    + by rewrite Hstep.
Qed.

(** A read of an ingestion that has left [in_progress] changes nothing in
    the store. *)
Lemma get_ingestion_frozen (iid : string) (now : Z) (s : DemoDataStore)
    (record : IngestionRecord) :
  ingestions s !! iid = Some record ->
  status record <> in_progress ->
  get_ingestion iid now s = Some (Some record, s).
Proof.
  intros Hrec Hst. unfold get_ingestion.
  rewrite Hrec, refresh_frozen by assumption.
  rewrite insert_id by assumption. by destruct s.
Qed.

Lemma perform_all_frozen (iid : string) (ops : list Op) (s : DemoDataStore)
    (record : IngestionRecord) :
  ingestions s !! iid = Some record ->
  status record <> in_progress ->
  Forall (fun o => exists now, o = Recompute now) ops ->
  perform_all iid ops s = Some s.
Proof.
  intros Hrec Hst Hops. induction Hops as [| o rest [now ->] _ IH]; simpl.
  - reflexivity.
  - by rewrite (get_ingestion_frozen iid now s record).
Qed.

Lemma new_record_ordered (sid hex : string) (now : Z) :
  ordered_steps (steps (new_record sid hex now)).
Proof.
  intros i j si sj Hij Hi Hj Hnc. simpl in *.
  destruct i as [| [| [| [| i]]]], j as [| [| [| [| j]]]];
    simplify_eq/=; try lia; try reflexivity; congruence.
Qed.

Lemma ordered_one_in_progress (l : list Step) :
  ordered_steps l ->
  forall i j si sj,
    l !! i = Some si -> l !! j = Some sj ->
    step_status si = in_progress -> step_status sj = in_progress -> i = j.
Proof.
  intros Hord i j si sj Hi Hj Hsi Hsj.
  destruct (Nat.lt_trichotomy i j) as [Hlt | [-> | Hlt]]; [| reflexivity |].
  - pose proof (Hord i j si sj Hlt Hi Hj). intuition congruence.
  - pose proof (Hord j i sj si Hlt Hj Hi). intuition congruence.
Qed.

(** C3 (amended). From the creation of an ingestion on, along every
    sequence of reads, cancellations, selections and finalizations, none of
    which raises: a step that is completed stays completed and a canceled
    step never goes back to pending or in_progress (finalization turns it
    into completed); at most one step is in_progress at any time; once the
    status of the record has left in_progress it never returns to it, and
    from then on a recomputation changes nothing, neither in the record nor
    in the store. The status itself may still change after that, through
    [cancel_ingestion] and [finalize_ingestion]. *)
Theorem statuses_monotone (s0 : DemoDataStore) (sid hex : string) (t0 : Z)
    (ops1 ops2 : list Op) :
  exists s1 s2 r1 r2,
    perform_all (_uid "ing" hex) ops1 (start_ingestion sid hex t0 s0).2 = Some s1
    /\ perform_all (_uid "ing" hex) ops2 s1 = Some s2
    /\ ingestions s1 !! _uid "ing" hex = Some r1
    /\ ingestions s2 !! _uid "ing" hex = Some r2
    /\ (forall i st1, steps r1 !! i = Some st1 ->
          exists st2, steps r2 !! i = Some st2
            /\ (step_status st1 = completed -> step_status st2 = completed)
            /\ (step_status st1 = canceled ->
                  step_status st2 = canceled \/ step_status st2 = completed))
    /\ (forall i j si sj,
          steps r1 !! i = Some si -> steps r1 !! j = Some sj ->
          step_status si = in_progress -> step_status sj = in_progress ->
          i = j)
    /\ (status r1 <> in_progress ->
          status r2 <> in_progress
          /\ (forall now, _refresh_ingestion_progress r1 now = Some r1)
          /\ (Forall (fun o => exists now, o = Recompute now) ops2 -> s2 = s1)).
Proof.
  set (iid := _uid "ing" hex).
  set (r0 := new_record sid hex t0).
  assert (ingestions (start_ingestion sid hex t0 s0).2 !! iid = Some r0) as H0.
  { simpl. apply lookup_insert_eq. }
  destruct (run_total ops1 r0 eq_refl) as (r1 & Hrun1 & Hlen1 & Hord1 & _ & _).
  pose proof (perform_all_run iid ops1 _ r0 H0) as Hp1. rewrite Hrun1 in Hp1.
  destruct Hp1 as (s1 & Hs1 & Hr1).
  destruct (run_total ops2 r1 Hlen1) as (r2 & Hrun2 & _ & _ & Hleft & Hfwd).
  pose proof (perform_all_run iid ops2 s1 r1 Hr1) as Hp2. rewrite Hrun2 in Hp2.
  destruct Hp2 as (s2 & Hs2 & Hr2).
  exists s1, s2, r1, r2. repeat split; try assumption.
  - intros i st1 Hst1. destruct (Hfwd i st1 Hst1) as (st2 & Hst2 & Hle).
    exists st2. split; [exact Hst2 |].
    destruct (step_status st1), (step_status st2); simpl in Hle;
      split; intros; try congruence; auto.
  - apply ordered_one_in_progress, Hord1, new_record_ordered.
  - by apply Hleft.
  - intros now. by apply refresh_frozen.
  - intros Hops.
    rewrite (perform_all_frozen iid ops2 s1 r1 Hr1) in Hs2 by assumption.
    congruence.
Qed.

(** The status does change after it has left in_progress: a canceled
    ingestion that is finalized becomes completed, and its canceled step
    with it. *)
Lemma canceled_then_finalized :
  exists s1 s2 r1 r2,
    perform_all (_uid "ing" sample_hex) [Cancel]
      (start_ingestion "s1" sample_hex 0 empty_store).2 = Some s1
    /\ perform_all (_uid "ing" sample_hex) [Finalize] s1 = Some s2
    /\ ingestions s1 !! _uid "ing" sample_hex = Some r1
    /\ ingestions s2 !! _uid "ing" sample_hex = Some r2
    /\ status r1 = canceled
    /\ status r1 <> in_progress
    /\ status r2 = completed
    /\ status r2 <> status r1
    /\ step_status <$> steps r1 = [canceled; pending; pending; pending]
    /\ step_status <$> steps r2 = [completed; completed; completed; completed].
Proof.
  eexists _, _, _, _.
  split; [vm_compute; reflexivity |].
  split; [vm_compute; reflexivity |].
  split; [vm_compute; reflexivity |].
  split; [vm_compute; reflexivity |].
  repeat split; try discriminate.
Qed.

(** ** Progress over time *)

(** The summary fields after a recomputation of a running record. *)
Lemma refresh_summary (record record' : IngestionRecord) (now : Z) :
  status record = in_progress ->
  _refresh_ingestion_progress record now = Some record' ->
  started_at record' = started_at record
  /\ if ge_int (elapsed_since (started_at record) now) 50
     then status record' = completed /\ progress record' = 100%Z
     else status record' = in_progress
          /\ progress record'
             = Z.min 95 (scaled_progress (elapsed_since (started_at record) now)).
Proof.
  intros Hst. unfold _refresh_ingestion_progress.
  case_decide; [congruence |].
  destruct (refresh_steps _ 0 progress_points (steps record)); [| discriminate].
  rewrite total_time_eq.
  destruct (ge_int _ 50); intros [= <-]; simpl; rewrite ?Hst; auto.
Qed.

Lemma apply_op_started_at (o : Op) (record record' : IngestionRecord) :
  apply_op o record = Some record' -> started_at record' = started_at record.
Proof.
  destruct o; simpl; try (by intros [= <-]).
  unfold _refresh_ingestion_progress. case_decide; [by intros [= <-] |].
  destruct (refresh_steps _ 0 progress_points (steps record)); [| discriminate].
  destruct (ge_int _ total_time); by intros [= <-].
Qed.

Lemma run_started_at (ops : list Op) :
  forall record record',
    run ops record = Some record' -> started_at record' = started_at record.
Proof.
  induction ops as [| o rest IH]; intros record record'; simpl.
  - by intros [= <-].
  - destruct (apply_op o record) as [r1 |] eqn:Hr1; [| discriminate].
    intros Hrun. rewrite (IH _ _ Hrun). by apply (apply_op_started_at o).
Qed.

Lemma run_left (ops : list Op) :
  forall record record',
    run ops record = Some record' ->
    status record <> in_progress -> status record' <> in_progress.
Proof.
  induction ops as [| o rest IH]; intros record record'; simpl.
  - by intros [= <-].
  - destruct (apply_op o record) as [r1 |] eqn:Hr1; [| discriminate].
    intros Hrun Hst. apply (IH _ _ Hrun). by apply (apply_op_left o record r1).
Qed.

(** C4 (amended). Between two recomputations of a record, the first at
    [t1] and the second at [t2 >= t1], with any calls in between, the
    progress does not decrease as long as the record is still in_progress
    after the second. The progress 5 that [start_ingestion] sets is not part
    of this: it is not a lower bound of what a recomputation stores. *)
Theorem progress_nondecreasing (record r1 r r2 : IngestionRecord)
    (t1 t2 : Z) (ops : list Op) :
  status record = in_progress ->
  (t1 <= t2)%Z ->
  _refresh_ingestion_progress record t1 = Some r1 ->
  run ops r1 = Some r ->
  _refresh_ingestion_progress r t2 = Some r2 ->
  status r2 = in_progress ->
  (progress r1 <= progress r2)%Z.
Proof.
  intros Hst Ht Hr1 Hrun Hr2 Hst2.
  destruct (decide (status r = in_progress)) as [Hr | Hr].
  2:{ rewrite refresh_frozen in Hr2 by assumption. congruence. }
  destruct (refresh_summary r r2 t2 Hr Hr2) as (_ & H2).
  destruct (refresh_summary record r1 t1 Hst Hr1) as (Hsa & H1).
  rewrite (run_started_at ops r1 r Hrun), Hsa in H2.
  destruct (ge_int (elapsed_since (started_at record) t2) 50);
    [destruct H2; congruence |].
  destruct H2 as (_ & ->).
  destruct (ge_int (elapsed_since (started_at record) t1) 50) eqn:H50.
  - destruct H1 as (Hc & _). exfalso.
    apply (run_left ops r1 r Hrun); congruence.
  - destruct H1 as (_ & ->).
    apply Z.min_le_compat_l, scaled_progress_mono, elapsed_since_mono, Ht.
Qed.

Lemma progress_nondecreasing_witness :
  exists r1 r r2,
    _refresh_ingestion_progress sample_record 9000000 = Some r1
    /\ run [RecordSelection ["logo_2_s1"]; Recompute 12000000] r1 = Some r
    /\ _refresh_ingestion_progress r 20000000 = Some r2
    /\ status r2 = in_progress
    /\ (progress r1 <= progress r2)%Z.
Proof.
  eexists _, _, _.
  split; [vm_compute; reflexivity |].
  split; [vm_compute; reflexivity |].
  split; [vm_compute; reflexivity |].
  split; [reflexivity |].
  eapply (progress_nondecreasing sample_record _ _ _ 9000000 20000000
            [RecordSelection ["logo_2_s1"]; Recompute 12000000]).
  - reflexivity.
  - lia.
  - vm_compute; reflexivity.
  - vm_compute; reflexivity.
  - vm_compute; reflexivity.
  - reflexivity.
Defined.

(** The first read of a new ingestion lowers its progress: created with
    progress 5, it shows 2 one second later, while still in_progress. *)
Lemma progress_drops_after_start :
  exists r0 s1 r1 s2,
    start_ingestion "s1" sample_hex 0 empty_store = (r0, s1)
    /\ get_ingestion (rec_id r0) 1000000 s1 = Some (Some r1, s2)
    /\ progress r0 = 5%Z
    /\ status r1 = in_progress
    /\ progress r1 = 2%Z
    /\ ~ (progress r0 <= progress r1)%Z.
Proof.
  eexists _, _, _, _.
  split; [reflexivity |].
  split; [vm_compute; reflexivity |].
  repeat split. simpl. lia.
Qed.

(** ** The first eight seconds *)

(** Up to the last microsecond before the first cutoff the progress
    number stays below 16. *)
Lemma scaled_progress_early (t now : Z) :
  (elapsed_since t now < 8)%Q ->
  (scaled_progress (elapsed_since t now) <= 15)%Z.
Proof.
  intros H8.
  assert (scaled_progress (total_seconds 7999999) = 15%Z) as <-
    by (vm_compute; reflexivity).
  apply scaled_progress_mono, total_seconds_mono.
  assert (~ (t + 8 * 1000000 <= now)%Z) as Hn; [| lia].
  intros Hle. apply (elapsed_since_ge _ _ 8) in Hle.
  - by apply (Qlt_not_le _ _ H8).
  - rewrite progress_points_eq. set_solver.
Qed.

(** One recomputation less than eight seconds after the start keeps the
    initial pattern of steps. *)
Lemma refresh_early (record : IngestionRecord) (now : Z) :
  status record = in_progress ->
  step_status <$> steps record = [in_progress; pending; pending; pending] ->
  (0 <= elapsed_since (started_at record) now)%Q ->
  (elapsed_since (started_at record) now < 8)%Q ->
  exists record',
    _refresh_ingestion_progress record now = Some record'
    /\ status record' = in_progress
    /\ started_at record' = started_at record
    /\ step_status <$> steps record' = [in_progress; pending; pending; pending]
    /\ (0 <= progress record' < 16)%Z.
Proof.
  intros Hst Hsteps H0 H8.
  set (elapsed := elapsed_since (started_at record) now) in *.
  assert (length (steps record) = 4%nat) as Hlen.
  { by rewrite <- (length_fmap step_status), Hsteps. }
  destruct (refresh_running record now Hst Hlen) as (l & _ & Hl & Hlook & Heq).
  fold elapsed in Hlook, Heq.
  assert (ge_int elapsed 8 = false) as Hge8 by (apply ge_int_false; exact H8).
  assert (ge_int elapsed total_time = false) as Hge50.
  { apply ge_int_false. rewrite total_time_eq.
    change (inject_Z 50) with 50%Q. lra. }
  assert (reached elapsed progress_points = 0%nat) as Hk.
  { rewrite progress_points_eq. simpl. by rewrite Hge8. }
  rewrite Hge50 in Heq. rewrite Hk in Hlook.
  eexists. split; [exact Heq |]. simpl.
  split; [reflexivity |]. split; [reflexivity |]. split.
  - destruct (steps record) as [| a [| b [| c [| d [| ? ?]]]]]; try discriminate.
    destruct l as [| a' [| b' [| c' [| d' [| ? ?]]]]]; try discriminate.
    injection Hsteps as Ha Hb Hc Hd.
    pose proof (Hlook 0%nat a eq_refl) as [= ->].
    pose proof (Hlook 1%nat b eq_refl) as [= ->].
    pose proof (Hlook 2%nat c eq_refl) as [= ->].
    pose proof (Hlook 3%nat d eq_refl) as [= ->].
    unfold touch, start_step. simpl. rewrite Ha, Hb, Hc, Hd. simpl.
    by rewrite Ha.
  - pose proof (scaled_progress_nonneg elapsed H0).
    pose proof (scaled_progress_early (started_at record) now H8).
    fold elapsed in H1. lia.
Qed.

(** C5 (amended). A new ingestion read any number of times, each less than
    eight seconds after its start, is still in_progress, has its first step
    in_progress and the others pending, and shows a progress in [0, 16):
    the lower bound is 0, not 5. *)
Theorem early_observation (sid hex : string) (t0 : Z) (ts : list Z) (t : Z) :
  Forall (fun x => (0 <= elapsed_since t0 x)%Q /\ (elapsed_since t0 x < 8)%Q)
    (ts ++ [t]) ->
  exists record',
    run (Recompute <$> ts ++ [t]) (new_record sid hex t0) = Some record'
    /\ status record' = in_progress
    /\ step_status <$> steps record' = [in_progress; pending; pending; pending]
    /\ (0 <= progress record' < 16)%Z.
Proof.
  assert (forall record,
            status record = in_progress -> started_at record = t0 ->
            step_status <$> steps record = [in_progress; pending; pending; pending] ->
            Forall (fun x => (0 <= elapsed_since t0 x)%Q
                             /\ (elapsed_since t0 x < 8)%Q) (ts ++ [t]) ->
            exists record',
              run (Recompute <$> ts ++ [t]) record = Some record'
              /\ status record' = in_progress
              /\ step_status <$> steps record' = [in_progress; pending; pending; pending]
              /\ (0 <= progress record' < 16)%Z) as Hgen.
  { induction ts as [| x rest IH]; intros record Hst Hsa Hsteps Hall; simpl in *.
    - apply Forall_cons in Hall as [[H0 H8] _]. rewrite <- Hsa in H0, H8.
      destruct (refresh_early record t Hst Hsteps H0 H8)
        as (r' & -> & ? & _ & ? & ?).
      exists r'. auto.
    - apply Forall_cons in Hall as [[H0 H8] Hall]. rewrite <- Hsa in H0, H8.
      destruct (refresh_early record x Hst Hsteps H0 H8)
        as (r' & -> & Hst' & Hsa' & Hsteps' & _).
      apply IH; [assumption | congruence | assumption | assumption]. }
  intros Hall. by apply Hgen.
Qed.

Lemma early_observation_witness :
  exists record',
    run (Recompute <$> [1000000; 3000000] ++ [7999999])%Z
      (new_record "s1" sample_hex 0) = Some record'
    /\ status record' = in_progress
    /\ step_status <$> steps record' = [in_progress; pending; pending; pending]
    /\ (0 <= progress record' < 16)%Z.
Proof.
  apply (early_observation "s1" sample_hex 0 [1000000; 3000000] 7999999)%Z.
  repeat (apply Forall_cons; split;
          [split; [vm_compute; discriminate | vm_compute; reflexivity] |]).
  apply Forall_nil_2.
Defined.

(** One second after the start the progress read is 2, below 5. *)
Lemma early_progress_below_five :
  (0 <= elapsed_since 0 1000000)%Q /\ (elapsed_since 0 1000000 < 8)%Q
  /\ exists record',
       run [Recompute 1000000] (new_record "s1" sample_hex 0) = Some record'
       /\ progress record' = 2%Z
       /\ ~ (5 <= progress record' < 16)%Z.
Proof.
  split; [vm_compute; discriminate |]. split; [vm_compute; reflexivity |].
  eexists. split; [vm_compute; reflexivity |].
  split; [reflexivity |]. simpl. lia.
Qed.

(** ** Selection *)

Lemma select_record_groups (selected_ids : list string)
    (record : IngestionRecord) (g' : Group) (a' : Asset) :
  g' ∈ asset_groups (select_record selected_ids record) ->
  a' ∈ group_assets g' ->
  exists g a,
    g ∈ asset_groups record /\ a ∈ group_assets g
    /\ group_id g' = group_id g /\ group_name g' = group_name g
    /\ a' = set_asset_selected (bool_decide (asset_id a ∈ selected_ids)) a.
Proof.
  simpl. intros Hg Ha.
  apply list_elem_of_fmap in Hg as (g & -> & Hg). simpl in Ha.
  apply list_elem_of_fmap in Ha as (a & -> & Ha).
  exists g, a. repeat split; try assumption.
  f_equal. apply bool_decide_ext. by rewrite elem_of_list_to_set.
Qed.

Lemma select_record_in_sync (selected_ids : list string)
    (record : IngestionRecord) :
  selection_in_sync (select_record selected_ids record).
Proof.
  intros g' a' Hg Ha.
  destruct (select_record_groups _ _ _ _ Hg Ha) as (g & a & _ & _ & _ & _ & ->).
  simpl. rewrite bool_decide_eq_true. by rewrite elem_of_list_to_set.
Qed.

Lemma all_assets_elem (record : IngestionRecord) (a : Asset) :
  a ∈ all_assets record <->
  exists g, g ∈ asset_groups record /\ a ∈ group_assets g.
Proof.
  unfold all_assets. rewrite list_elem_of_bind.
  split; intros (g & ? & ?); exists g; auto.
Qed.


(** The round trip of the specification: selecting ["logo_1_s1"] alone. *)
Example selection_round_trip :
  (fun a => (asset_id a, asset_selected a))
    <$> all_assets (select_record ["logo_1_s1"] sample_record)
  = [ ("logo_1_s1", true); ("logo_2_s1", false);
      ("menu_1_s1", false); ("menu_2_s1", false);
      ("products_1_s1", false); ("products_2_s1", false);
      ("interior_1_s1", false); ("interior_2_s1", false) ].
Proof. vm_compute. reflexivity. Qed.






(** ** Finalization *)




(** [link_store] on the links of every user. *)
Lemma link_store_links (u v : Z) (sid : string) (s : DemoDataStore) :
  user_store_links (link_store u sid s) !! v
  = if decide (v = u) then
      Some (let l := default [stores_0_id] (user_store_links s !! u) in
            if decide (sid ∈ l) then l else l ++ [sid])
    else user_store_links s !! v.
Proof.
  unfold link_store, ensure_user_state.
  cbn [user_store_links set_user_state].
  destruct (user_store_links s !! u) as [l |] eqn:Hu; simpl.
  - rewrite Hu. destruct (decide (sid ∈ l)); simpl.
    + case_decide; [by subst |]. reflexivity.
    + case_decide; [subst; apply lookup_insert_eq | by apply lookup_insert_ne].
  - rewrite lookup_insert_eq. destruct (decide (sid ∈ [stores_0_id])); simpl.
    + case_decide; [subst; apply lookup_insert_eq |].
      rewrite lookup_insert_ne by congruence. reflexivity.
    + case_decide; [subst; apply lookup_insert_eq |].
      rewrite !lookup_insert_ne by congruence. reflexivity.
Qed.

Lemma link_all_links (sid : string) (users : list Z) :
  forall (s : DemoDataStore),
    let s' := foldl (fun acc user_id => link_store user_id sid acc) s users in
    (forall v, v ∉ users -> user_store_links s' !! v = user_store_links s !! v)
    /\ (forall v l, user_store_links s !! v = Some l -> sid ∈ l ->
          exists l', user_store_links s' !! v = Some l' /\ sid ∈ l')
    /\ (forall v, v ∈ users ->
          exists l', user_store_links s' !! v = Some l' /\ sid ∈ l').
Proof.
  induction users as [| u users IH]; intros s; simpl.
  - split; [reflexivity |]. split; [eauto |].
    intros v Hv. by apply elem_of_nil in Hv.
  - destruct (IH (link_store u sid s)) as (Hout & Hkeep & Hin).
    assert (exists l, user_store_links (link_store u sid s) !! u = Some l
                      /\ sid ∈ l) as Hu.
    { rewrite link_store_links. case_decide; [| congruence].
      eexists. split; [reflexivity |]. simpl.
      case_decide; [assumption |]. apply elem_of_app. right.
      apply list_elem_of_here. }
    split; [| split].
    + intros v Hv. rewrite Hout.
      * rewrite link_store_links. case_decide; [| reflexivity].
        subst. exfalso. apply Hv. apply list_elem_of_here.
      * intros Hv'. apply Hv. by apply list_elem_of_further.
    + intros v l Hl Hsid. destruct (decide (v = u)) as [-> | Hne].
      * destruct Hu as (l' & Hl' & Hsid'). by apply (Hkeep u l').
      * apply (Hkeep v l); [| assumption].
        rewrite link_store_links. case_decide; [congruence | assumption].
    + intros v Hv. apply elem_of_cons in Hv as [-> | Hv].
      * destruct Hu as (l' & Hl' & Hsid'). by apply (Hkeep u l').
      * by apply Hin.
Qed.

Lemma link_store_for_asset_links (sid : string) (s : DemoDataStore) :
  (forall v, v ∈ dom (user_store_links s) ->
     exists l, user_store_links (link_store_for_asset sid s) !! v = Some l
               /\ sid ∈ l)
  /\ (forall v, v ∉ dom (user_store_links s) ->
        user_store_links (link_store_for_asset sid s) !! v = None).
Proof.
  unfold link_store_for_asset.
  destruct (link_all_links sid (map_to_list (user_store_links s)).*1 s)
    as (Hout & _ & Hin).
  assert (forall v, v ∈ (map_to_list (user_store_links s)).*1
                    <-> v ∈ dom (user_store_links s)) as Hdom.
  { intros v. rewrite elem_of_dom, list_elem_of_fmap. split.
    - intros ([k l] & -> & Hkl). apply elem_of_map_to_list in Hkl. eauto.
    - intros [l Hl]. exists (v, l). split; [reflexivity |].
      by apply elem_of_map_to_list. }
  split.
  - intros v Hv. apply Hin, Hdom, Hv.
  - intros v Hv. rewrite Hout by (by rewrite Hdom).
    by apply not_elem_of_dom.
Qed.


(** The scenario of the specification: a store started through the view
    and finalized promotes its four pre-selected assets and links the store
    to the user. *)
Example finalize_scenario :
  let s1 := (StoreIngestionStartView_post 7 "s2" sample_hex 0 empty_store).2 in
  let s2 := (cancel_ingestion (_uid "ing" sample_hex) s1).2 in
  let '(outcome, s3) := finalize_ingestion (_uid "ing" sample_hex) s2 in
  outcome = Some (mkOutcome "library_default" 4)
  /\ status <$> ingestions s2 !! _uid "ing" sample_hex = Some canceled
  /\ status <$> ingestions s3 !! _uid "ing" sample_hex = Some completed
  /\ sa_category <$> assets s3 !! "logo_1_s2" = Some "logo"
  /\ sa_storeId <$> assets s3 !! "logo_1_s2" = Some "s2"
  /\ assets s3 !! "logo_2_s2" = None
  /\ user_store_links s3 !! 7%Z = Some ["s1"; "s2"].
Proof. vm_compute. repeat split. Qed.

(** ** Generation jobs *)

Lemma progress_job_terminal (job : Job) (kind : JobKind) (now : Z) :
  job_status job = succeeded \/ job_status job = failed ->
  _progress_job job kind now = job.
Proof.
  intros Hst. unfold _progress_job. case_decide; [reflexivity |].
  exfalso. tauto.
Qed.

Lemma progress_job_all_terminal (job : Job) (kind : JobKind) (times : list Z) :
  job_status job = succeeded \/ job_status job = failed ->
  progress_job_all job kind times = job.
Proof.
  intros Hst. induction times as [| now rest IH]; simpl; [reflexivity |].
  by rewrite progress_job_terminal.
Qed.


Example job_phase_boundaries :
  job_status (_progress_job (sample_job queued) poster 2000000) = queued
  /\ job_status (_progress_job (sample_job queued) poster 2100000) = running
  /\ job_status (_progress_job (sample_job running) menu 10000000) = running
  /\ job_status (_progress_job (sample_job running) menu 10100000) = succeeded
  /\ resultUrl (_progress_job (sample_job running) menu 10100000)
     = Some "https://images.unsplash.com/photo-1504674900247-0877df9cc836?q=80&w=1200&poster_job_0123456789ab".
Proof. vm_compute. repeat split. Qed.


(** ** Saving without reading *)

Lemma get_job_terminal (kind : JobKind) (jid : string) (now : Z)
    (s : DemoDataStore) (job : Job) :
  jobs_of kind s !! jid = Some job ->
  job_status job = succeeded \/ job_status job = failed ->
  GetJob kind jid now s = (Some job, s).
Proof.
  intros Hjob Hst.
  destruct kind; simpl in *; unfold get_poster_job, get_menu_board_job;
    rewrite Hjob, progress_job_terminal by assumption;
    rewrite insert_id by assumption; by destruct s.
Qed.

Lemma get_job_all_terminal (kind : JobKind) (jid : string) (times : list Z)
    (s : DemoDataStore) (job : Job) :
  jobs_of kind s !! jid = Some job ->
  job_status job = succeeded \/ job_status job = failed ->
  get_job_all kind jid times s = s.
Proof.
  intros Hjob Hst. induction times as [| now rest IH]; simpl; [reflexivity |].
  by rewrite (get_job_terminal kind jid now s job).
Qed.

Lemma jobs_of_set_jobs (kind : JobKind) (m : gmap string Job)
    (s : DemoDataStore) :
  jobs_of kind (set_jobs kind m s) = m.
Proof. by destruct kind. Qed.

Lemma save_job_unfinished (kind : JobKind) (jid hex : string)
    (s : DemoDataStore) (job : Job) :
  jobs_of kind s !! jid = Some job ->
  job_status job <> succeeded ->
  exists job',
    SaveJob kind jid hex s
      = (job_not_ready, set_jobs kind (<[jid := job']> (jobs_of kind s)) s)
    /\ job_status job' = failed
    /\ resultUrl job' = resultUrl job
    /\ assets (set_jobs kind (<[jid := job']> (jobs_of kind s)) s) = assets s.
Proof.
  intros Hjob Hst.
  destruct kind; simpl in *;
    unfold PosterGenerationSaveView_post, MenuBoardGenerationSaveView_post,
      save_poster_job, save_menu_board_job;
    rewrite Hjob; (case_decide; [| contradiction]);
    eexists; simpl; repeat split.
Qed.

(** C10. [SaveJob] looks at the stored status only. A job whose stored
    status is still queued or running is marked failed and answered with
    [job_not_ready], no asset being created, even when more than ten
    seconds have passed since its creation, where a read would have made it
    succeeded; and however often it is read afterwards it stays the same
    failed job. *)
Theorem save_ignores_elapsed_time (kind : JobKind) (jid hex : string)
    (s : DemoDataStore) (job : Job) (now : Z) :
  jobs_of kind s !! jid = Some job ->
  job_status job = queued \/ job_status job = running ->
  (10 < elapsed_since (createdAt job) now)%Q ->
  exists s' job',
    SaveJob kind jid hex s = (job_not_ready, s')
    /\ jobs_of kind s' !! jid = Some job'
    /\ job_status job' = failed
    /\ resultUrl job' = resultUrl job
    /\ assets s' = assets s
    /\ (forall times,
          get_job_all kind jid times s' = s'
          /\ progress_job_all job' kind times = job')
    /\ job_status (_progress_job job kind now) = succeeded.
Proof.
  intros Hjob Hst Hlate.
  destruct (save_job_unfinished kind jid hex s job Hjob)
    as (job' & Hsave & Hfailed & Hurl & Hassets);
    [destruct Hst; congruence |].
  eexists _, job'. split; [exact Hsave |].
  assert (jobs_of kind (set_jobs kind (<[jid := job']> (jobs_of kind s)) s)
            !! jid = Some job') as Hjob'.
  { rewrite jobs_of_set_jobs. apply lookup_insert_eq. }
  split; [exact Hjob' |]. split; [exact Hfailed |]. split; [exact Hurl |].
  split; [exact Hassets |]. split.
  - intros times. split.
    + apply (get_job_all_terminal kind jid times _ job' Hjob'). by right.
    + apply progress_job_all_terminal. by right.
  - unfold _progress_job.
    case_decide as Hterm; [destruct Hterm, Hst; congruence |].
    apply gt_int_true in Hlate. by rewrite Hlate.
Qed.

Lemma save_ignores_elapsed_time_witness :
  exists s' job',
    SaveJob poster (_uid "poster_job" sample_hex) "ba9876543210"
      (create_poster_job (Some "Grand opening") sample_hex 0 empty_store).2
      = (job_not_ready, s')
    /\ poster_jobs s' !! _uid "poster_job" sample_hex = Some job'
    /\ job_status job' = failed
    /\ job_status (_progress_job (sample_job queued) poster 60000000) = succeeded.
Proof.
  destruct (save_ignores_elapsed_time poster (_uid "poster_job" sample_hex)
              "ba9876543210"
              (create_poster_job (Some "Grand opening") sample_hex 0 empty_store).2
              (sample_job queued) 60000000)
    as (s' & job' & Hsave & Hjob & Hfailed & _ & _ & _ & Hread).
  - vm_compute. reflexivity.
  - left. reflexivity.
  - reflexivity.
  - exists s', job'. auto.
Defined.

(** * Further properties *)

(** ** Recomputation, again *)

Lemma touch_idem (idx k n j : nat) (s : Step) :
  touch idx k n j (touch idx k n j s) = touch idx k n j s.
Proof.
  unfold touch, start_step.
  repeat case_decide; simpl in *; try reflexivity; try congruence;
    destruct s; simpl in *; congruence.
Qed.

(** X1. Recomputing a record twice at the same clock value gives what the
    first recomputation gave: the second one changes nothing. *)
Theorem refresh_idempotent (record r1 : IngestionRecord) (now : Z) :
  length (steps record) = 4%nat ->
  _refresh_ingestion_progress record now = Some r1 ->
  _refresh_ingestion_progress r1 now = Some r1.
Proof.
  intros Hlen Hrun.
  destruct (decide (status record = in_progress)) as [Hst | Hst].
  2:{ rewrite refresh_frozen in Hrun by assumption. injection Hrun as <-.
      by apply refresh_frozen. }
  destruct (refresh_running record now Hst Hlen) as (l & _ & Hl & Hlook & Heq).
  rewrite Heq in Hrun. injection Hrun as <-.
  destruct (ge_int _ total_time) eqn:Hge; [by apply refresh_frozen |].
  set (r1 := set_summary in_progress _ _ (set_steps l record)).
  destruct (refresh_running r1 now eq_refl Hl) as (l2 & _ & Hl2 & Hlook2 & Heq2).
  rewrite Heq2. change (started_at r1) with (started_at record). rewrite Hge.
  assert (l2 = l) as ->.
  { apply list_eq. intros j. destruct (l !! j) as [s' |] eqn:Hj.
    - destruct (lookup_lt_is_Some_2 (steps record) j) as [s Hs].
      { apply lookup_lt_Some in Hj. lia. }
      pose proof (Hlook j s Hs) as Hj'. rewrite Hj in Hj'. injection Hj' as ->.
      change (steps r1) with l in Hlook2.
      rewrite (Hlook2 j _ Hj).
      change (started_at r1) with (started_at record). by rewrite touch_idem.
    - apply lookup_ge_None. apply lookup_ge_None in Hj. lia. }
  reflexivity.
Qed.

Lemma refresh_idempotent_witness :
  exists r1,
    _refresh_ingestion_progress sample_record 19000000 = Some r1
    /\ _refresh_ingestion_progress r1 19000000 = Some r1.
Proof.
  eexists. split; [vm_compute; reflexivity |].
  apply (refresh_idempotent sample_record _ 19000000);
    [reflexivity | vm_compute; reflexivity].
Defined.

(** ** Status and steps along a history *)

Lemma reached_below_four (elapsed : Q) :
  ge_int elapsed total_time = false ->
  (reached elapsed progress_points <= 3)%nat.
Proof.
  intros Hge. apply ge_int_false in Hge. rewrite total_time_eq in Hge.
  destruct (decide (3 < reached elapsed progress_points)%nat) as [Hk |]; [| lia].
  apply (reached_progress_points elapsed 3 50 eq_refl) in Hk.
  exfalso. apply (Qlt_not_le _ _ Hge Hk).
Qed.

Lemma apply_op_consistent (o : Op) (record record' : IngestionRecord) :
  length (steps record) = 4%nat ->
  ordered_steps (steps record) ->
  consistent record ->
  apply_op o record = Some record' ->
  consistent record'.
Proof.
  intros Hlen Hord Hcons Hcall. destruct o as [now | | ids |]; simpl in Hcall.
  - destruct (decide (status record = in_progress)) as [Hst | Hst].
    2:{ rewrite refresh_frozen in Hcall by assumption. by injection Hcall as <-. }
    destruct (refresh_running record now Hst Hlen) as (l & _ & Hl & Hlook & Heq).
    rewrite Heq in Hcall. injection Hcall as <-.
    destruct (ge_int _ total_time) eqn:Hge; unfold consistent; simpl.
    + split; [apply Forall_fmap, Forall_true; reflexivity | by split].
    + unfold consistent in Hcons. rewrite Hst in Hcons.
      destruct Hcons as (a & sa & Ha & Hsa).
      pose proof (reached_below_four _ Hge) as Hk.
      set (k := reached _ progress_points) in *.
      destruct (decide (a < k)%nat) as [Hak | Hak].
      * destruct (lookup_lt_is_Some_2 (steps record) k) as [sk Hsk]; [lia |].
        assert (step_status sk = pending) as Hp.
        { apply (Hord a k sa sk Hak Ha Hsk). congruence. }
        exists k, (touch 0 k 4 k sk). split; [apply (Hlook k sk Hsk) |].
        unfold touch, start_step. repeat case_decide; try lia; try congruence.
        reflexivity.
      * exists a, (touch 0 k 4 a sa). split; [apply (Hlook a sa Ha) |].
        unfold touch, start_step.
        repeat case_decide; try lia; try congruence.
  - injection Hcall as <-. unfold consistent. simpl.
    split; [| split; [lia | reflexivity]].
    apply Forall_fmap, Forall_forall. intros s _. simpl.
    destruct (decide (step_status s = in_progress)); simpl; congruence.
  - injection Hcall as <-. exact Hcons.
  - injection Hcall as <-. unfold consistent. simpl.
    split; [apply Forall_fmap, Forall_true; reflexivity | by split].
Qed.

Lemma run_consistent (ops : list Op) :
  forall record,
    length (steps record) = 4%nat ->
    ordered_steps (steps record) ->
    consistent record ->
    exists record',
      run ops record = Some record'
      /\ length (steps record') = 4%nat
      /\ ordered_steps (steps record')
      /\ consistent record'.
Proof.
  induction ops as [| o rest IH]; intros record Hlen Hord Hcons; simpl.
  - exists record. auto.
  - destruct (apply_op_total o record Hlen) as [r1 Hr1]. rewrite Hr1.
    apply IH.
    + by apply (apply_op_length o record r1).
    + by apply (apply_op_ordered o record r1).
    + by apply (apply_op_consistent o record r1).
Qed.

Lemma new_record_consistent (sid hex : string) (now : Z) :
  consistent (new_record sid hex now).
Proof.
  unfold consistent. simpl. exists 0%nat. eexists. split; reflexivity.
Qed.

(** X2. From the creation of an ingestion on and along every sequence of
    calls, the status of the record and its steps fit together: while the
    record is in_progress exactly one step is in_progress, every step before
    it is completed and every step after it pending; a completed record has
    every step completed, progress 100 and remaining time 0; a canceled
    record has no step in_progress, a progress of at most 80 and remaining
    time 0. *)
Theorem status_matches_steps (s0 : DemoDataStore) (sid hex : string) (t0 : Z)
    (ops : list Op) :
  exists s1 r1,
    perform_all (_uid "ing" hex) ops (start_ingestion sid hex t0 s0).2 = Some s1
    /\ ingestions s1 !! _uid "ing" hex = Some r1
    /\ length (steps r1) = 4%nat
    /\ (status r1 = in_progress ->
          exists i, (i < 4)%nat
            /\ forall j s, steps r1 !! j = Some s ->
                 step_status s
                 = if decide (j < i)%nat then completed
                   else if decide (j = i) then in_progress else pending)
    /\ (status r1 = completed ->
          Forall (fun s => step_status s = completed) (steps r1)
          /\ progress r1 = 100%Z
          /\ estimated_seconds_remaining r1 = 0%Z)
    /\ (status r1 = canceled ->
          Forall (fun s => step_status s <> in_progress) (steps r1)
          /\ (progress r1 <= 80)%Z
          /\ estimated_seconds_remaining r1 = 0%Z)
    /\ status r1 <> pending.
Proof.
  set (iid := _uid "ing" hex).
  set (r0 := new_record sid hex t0).
  assert (ingestions (start_ingestion sid hex t0 s0).2 !! iid = Some r0) as H0.
  { simpl. apply lookup_insert_eq. }
  destruct (run_consistent ops r0 eq_refl (new_record_ordered sid hex t0)
              (new_record_consistent sid hex t0))
    as (r1 & Hrun & Hlen & Hord & Hcons).
  pose proof (perform_all_run iid ops _ r0 H0) as Hp. rewrite Hrun in Hp.
  destruct Hp as (s1 & Hs1 & Hr1).
  exists s1, r1. split; [exact Hs1 |]. split; [exact Hr1 |].
  split; [exact Hlen |]. unfold consistent in Hcons.
  split; [| split; [| split]].
  - intros Hst. rewrite Hst in Hcons. destruct Hcons as (i & si & Hi & Hsi).
    exists i. split; [apply lookup_lt_Some in Hi; lia |].
    intros j s Hj. destruct (decide (j < i)%nat) as [Hlt | Hge].
    + destruct (decide (step_status s = completed)) as [| Hnc]; [assumption |].
      pose proof (Hord j i s si Hlt Hj Hi Hnc). congruence.
    + destruct (decide (j = i)) as [-> | Hne]; [congruence |].
      apply (Hord i j si s); [lia | assumption | assumption | congruence].
  - intros Hst. by rewrite Hst in Hcons.
  - intros Hst. by rewrite Hst in Hcons.
  - intros Hst. by rewrite Hst in Hcons.
Qed.

(** ** Ranges of the numeric fields *)

(** Progress and remaining time after a recomputation of a running record. *)
Lemma refresh_numbers (record record' : IngestionRecord) (now : Z) :
  status record = in_progress ->
  _refresh_ingestion_progress record now = Some record' ->
  if ge_int (elapsed_since (started_at record) now) 50
  then status record' = completed /\ progress record' = 100%Z
       /\ estimated_seconds_remaining record' = 0%Z
  else status record' = in_progress
       /\ progress record'
          = Z.min 95 (scaled_progress (elapsed_since (started_at record) now))
       /\ estimated_seconds_remaining record'
          = Z.max 10 (remaining (elapsed_since (started_at record) now)).
Proof.
  intros Hst. unfold _refresh_ingestion_progress.
  case_decide; [congruence |].
  destruct (refresh_steps _ 0 progress_points (steps record)); [| discriminate].
  rewrite total_time_eq.
  destruct (ge_int _ 50); intros [= <-]; simpl; rewrite ?Hst; auto.
Qed.

Lemma apply_op_in_range (o : Op) (record record' : IngestionRecord) :
  in_range record ->
  (forall now, o = Recompute now -> (started_at record <= now)%Z) ->
  apply_op o record = Some record' ->
  in_range record'.
Proof.
  intros (Hp & He & Hrun) Hclock Hcall.
  destruct o as [now | | ids |]; simpl in Hcall.
  - destruct (decide (status record = in_progress)) as [Hst | Hst].
    2:{ rewrite refresh_frozen in Hcall by assumption.
        injection Hcall as <-. exact (conj Hp (conj He Hrun)). }
    pose proof (refresh_numbers record record' now Hst Hcall) as Hnum.
    pose proof (elapsed_since_nonneg (started_at record) now
                  (Hclock now eq_refl)) as Hpos.
    set (elapsed := elapsed_since (started_at record) now) in *.
    destruct (ge_int elapsed 50) eqn:Hge.
    + destruct Hnum as (Hst' & Hprog & Heta). unfold in_range.
      rewrite Hprog, Heta. repeat split; try lia; congruence.
    + destruct Hnum as (Hst' & Hprog & Heta).
      pose proof (scaled_progress_nonneg elapsed Hpos) as Hfloor.
      assert (remaining elapsed <= 50)%Z as Hleft.
      { assert (remaining 0 = 50%Z) as <- by (vm_compute; reflexivity).
        by apply remaining_anti. }
      unfold in_range. rewrite Hprog, Heta. repeat split; lia.
  - injection Hcall as <-. unfold in_range. simpl.
    repeat split; try lia; discriminate.
  - injection Hcall as <-. exact (conj Hp (conj He Hrun)).
  - injection Hcall as <-. unfold in_range. simpl.
    repeat split; try lia; discriminate.
Qed.

Lemma run_in_range (ops : list Op) :
  forall record record',
    in_range record ->
    clock_from (started_at record) ops ->
    run ops record = Some record' ->
    in_range record'.
Proof.
  induction ops as [| o rest IH]; intros record record' Hin Hclock; simpl.
  - by intros [= <-].
  - destruct (apply_op o record) as [r1 |] eqn:Hr1; [| discriminate].
    apply Forall_cons in Hclock as [Ho Hrest].
    apply IH.
    + by apply (apply_op_in_range o record r1).
    + by rewrite (apply_op_started_at o record r1 Hr1).
Qed.

(** X3. As long as the clock of every read is not before the start of the
    ingestion, the numbers of its record stay within their ranges along
    every sequence of calls: progress within 0..100 and remaining time
    within 0..90, and while the record is in_progress the progress is at
    most 95 and the remaining time at least 10. *)
Theorem numbers_in_range (s0 : DemoDataStore) (sid hex : string) (t0 : Z)
    (ops : list Op) :
  clock_from t0 ops ->
  exists s1 r1,
    perform_all (_uid "ing" hex) ops (start_ingestion sid hex t0 s0).2 = Some s1
    /\ ingestions s1 !! _uid "ing" hex = Some r1
    /\ (0 <= progress r1 <= 100)%Z
    /\ (0 <= estimated_seconds_remaining r1 <= 90)%Z
    /\ (status r1 = in_progress ->
          (progress r1 <= 95)%Z /\ (10 <= estimated_seconds_remaining r1)%Z).
Proof.
  intros Hclock.
  set (iid := _uid "ing" hex).
  set (r0 := new_record sid hex t0).
  assert (ingestions (start_ingestion sid hex t0 s0).2 !! iid = Some r0) as H0.
  { simpl. apply lookup_insert_eq. }
  destruct (run_total ops r0 eq_refl) as (r1 & Hrun & _).
  pose proof (perform_all_run iid ops _ r0 H0) as Hp. rewrite Hrun in Hp.
  destruct Hp as (s1 & Hs1 & Hr1).
  exists s1, r1. split; [exact Hs1 |]. split; [exact Hr1 |].
  apply (run_in_range ops r0 r1); [| exact Hclock | exact Hrun].
  unfold in_range. simpl. repeat split; lia.
Qed.

Lemma numbers_in_range_witness :
  exists s1 r1,
    perform_all (_uid "ing" sample_hex)
      [Recompute 3000000; Recompute 20000000; Cancel; Finalize; Cancel]
      (start_ingestion "s1" sample_hex 0 empty_store).2 = Some s1
    /\ ingestions s1 !! _uid "ing" sample_hex = Some r1
    /\ (0 <= progress r1 <= 100)%Z
    /\ (0 <= estimated_seconds_remaining r1 <= 90)%Z.
Proof.
  destruct (numbers_in_range empty_store "s1" sample_hex 0
              [Recompute 3000000; Recompute 20000000; Cancel; Finalize; Cancel])
    as (s1 & r1 & Hs1 & Hr1 & Hp & He & _).
  - repeat constructor; intros now [= <-]; lia.
  - exists s1, r1. auto.
Defined.

(** ** Cancellation *)

Lemma cancel_record_idem (record : IngestionRecord) :
  cancel_record (cancel_record record) = cancel_record record.
Proof.
  unfold cancel_record, set_summary, set_steps. simpl. f_equal.
  - lia.
  - rewrite <- list_fmap_compose. apply list_fmap_ext. intros i s _. simpl.
    destruct (decide (step_status s = in_progress)) as [E | E]; simpl.
    + reflexivity.
    + by rewrite decide_False.
Qed.

(** X4. [cancel_ingestion] on a known id, whatever the status of the
    record: the record becomes canceled with remaining time 0 and its
    progress capped at 80; a step that was in_progress becomes canceled and
    every other step, the selection and the asset groups are kept; the
    record is returned; and cancelling once more changes nothing. On an
    unknown id the result is [None] and the store is unchanged. *)
Theorem cancel_ingestion_spec (iid : string) (s : DemoDataStore) :
  match ingestions s !! iid with
  | None => cancel_ingestion iid s = (None, s)
  | Some record =>
      exists record' s',
        cancel_ingestion iid s = (Some record', s')
        /\ ingestions s' = <[iid := record']> (ingestions s)
        /\ status record' = canceled
        /\ estimated_seconds_remaining record' = 0%Z
        /\ progress record' = Z.min (progress record) 80
        /\ length (steps record') = length (steps record)
        /\ (forall i st, steps record !! i = Some st ->
              exists st', steps record' !! i = Some st'
                /\ step_id st' = step_id st /\ step_label st' = step_label st
                /\ step_status st'
                   = if decide (step_status st = in_progress)
                     then canceled else step_status st)
        /\ selected_asset_ids record' = selected_asset_ids record
        /\ asset_groups record' = asset_groups record
        /\ started_at record' = started_at record
        /\ assets s' = assets s
        /\ user_store_links s' = user_store_links s
        /\ cancel_ingestion iid s' = (Some record', s')
  end.
Proof.
  destruct (ingestions s !! iid) as [record |] eqn:Hrec;
    unfold cancel_ingestion; rewrite Hrec; [| reflexivity].
  eexists _, _. split; [reflexivity |]. simpl.
  split; [reflexivity |]. do 3 (split; [reflexivity |]).
  split; [apply length_fmap |]. split; [| repeat split].
  - intros i st Hst. eexists. rewrite list_lookup_fmap, Hst. simpl.
    split; [reflexivity |].
    destruct (decide (step_status st = in_progress)); by repeat split.
  - rewrite lookup_insert_eq. rewrite cancel_record_idem.
    by rewrite insert_insert_eq.
Qed.

(** X5. Cancelling after finalizing: the ingestion becomes canceled with
    progress 80 although every step stays completed, and what the
    finalization has stored is kept: the promoted assets and the links of
    the users are unchanged. *)
Theorem cancel_after_finalize (iid : string) (s : DemoDataStore)
    (record : IngestionRecord) :
  ingestions s !! iid = Some record ->
  exists outcome s1 record' s2,
    finalize_ingestion iid s = (Some outcome, s1)
    /\ cancel_ingestion iid s1 = (Some record', s2)
    /\ ingestions s2 !! iid = Some record'
    /\ status record' = canceled
    /\ progress record' = 80%Z
    /\ estimated_seconds_remaining record' = 0%Z
    /\ Forall (fun st => step_status st = completed) (steps record')
    /\ assets s2 = assets s1
    /\ user_store_links s2 = user_store_links s1.
Proof.
  intros Hrec. unfold finalize_ingestion. rewrite Hrec.
  eexists _, _. cbv zeta.
  match goal with
  | |- exists r s2, (_, ?s1) = _ /\ _ =>
      assert (ingestions s1 !! iid = Some (complete_record record)) as H1
  end.
  { match goal with
    | |- ingestions (link_store_for_asset ?a ?b) !! _ = _ =>
        rewrite (proj1 (link_store_for_asset_fields a b))
    end.
    simpl. apply lookup_insert_eq. }
  unfold cancel_ingestion. rewrite H1.
  eexists _, _. split; [reflexivity |]. split; [reflexivity |].
  split; [simpl; apply lookup_insert_eq |]. simpl.
  do 3 (split; [reflexivity |]). split; [| by split].
  rewrite <- list_fmap_compose. apply Forall_fmap, Forall_true.
  intros st. reflexivity.
Qed.

Lemma cancel_after_finalize_witness :
  exists outcome s1 record' s2,
    finalize_ingestion (_uid "ing" sample_hex)
      (start_ingestion "s1" sample_hex 0 empty_store).2 = (Some outcome, s1)
    /\ cancel_ingestion (_uid "ing" sample_hex) s1 = (Some record', s2)
    /\ status record' = canceled
    /\ progress record' = 80%Z
    /\ assets s2 = assets s1.
Proof.
  destruct (cancel_after_finalize (_uid "ing" sample_hex)
              (start_ingestion "s1" sample_hex 0 empty_store).2 sample_record)
    as (outcome & s1 & record' & s2 & H1 & H2 & _ & H3 & H4 & _ & _ & H5 & _).
  - vm_compute. reflexivity.
  - exists outcome, s1, record', s2. auto.
Defined.

(** ** Calls on one ingestion leave the rest of the store alone *)

(** X6. A read, a cancellation, a selection or a finalization of one
    ingestion never changes the record of another ingestion, nor any job;
    and only a finalization changes the stored assets, the links or the
    preferences of the users. *)
Theorem perform_frame (iid : string) (o : Op) (s s' : DemoDataStore) :
  perform iid o s = Some s' ->
  (forall other, other <> iid -> ingestions s' !! other = ingestions s !! other)
  /\ poster_jobs s' = poster_jobs s
  /\ menu_board_jobs s' = menu_board_jobs s
  /\ (o <> Finalize ->
        assets s' = assets s
        /\ user_store_links s' = user_store_links s
        /\ user_preferences s' = user_preferences s).
Proof.
  destruct o as [now | | ids |]; simpl.
  - unfold get_ingestion. destruct (ingestions s !! iid) as [record |].
    + destruct (_refresh_ingestion_progress record now); [| discriminate].
      intros [= <-]. simpl. repeat split.
      intros other Hne. by apply lookup_insert_ne.
    + intros [= <-]. by repeat split.
  - unfold cancel_ingestion. destruct (ingestions s !! iid) as [record |];
      intros [= <-]; simpl; repeat split.
    intros other Hne. by apply lookup_insert_ne.
  - unfold record_selection. destruct (ingestions s !! iid) as [record |];
      intros [= <-]; simpl; repeat split.
    intros other Hne. by apply lookup_insert_ne.
  - unfold finalize_ingestion. destruct (ingestions s !! iid) as [record |];
      intros [= <-]; simpl; [| by repeat split].
    match goal with
    | |- context [link_store_for_asset ?a ?b] =>
        destruct (link_store_for_asset_fields a b) as (-> & _ & -> & ->)
    end.
    simpl. split; [| split; [reflexivity | split; [reflexivity |]]].
    + intros other Hne. by apply lookup_insert_ne.
    + intros Hno. by destruct Hno.
Qed.

Lemma perform_frame_witness :
  exists s',
    perform (_uid "ing" sample_hex) Cancel
      (start_ingestion "s2" "ba9876543210" 5
         (start_ingestion "s1" sample_hex 0 empty_store).2).2 = Some s'
    /\ ingestions s' !! _uid "ing" "ba9876543210"
       = Some (new_record "s2" "ba9876543210" 5).
Proof.
  eexists. split; [reflexivity |].
  destruct (perform_frame (_uid "ing" sample_hex) Cancel
              (start_ingestion "s2" "ba9876543210" 5
                 (start_ingestion "s1" sample_hex 0 empty_store).2).2 _ eq_refl)
    as (Hother & _).
  rewrite Hother by discriminate. vm_compute. reflexivity.
Defined.

(** ** Finalizing twice *)

Lemma complete_record_idem (record : IngestionRecord) :
  complete_record (complete_record record) = complete_record record.
Proof.
  unfold complete_record, set_summary, set_steps. simpl. f_equal.
  rewrite <- list_fmap_compose. by apply list_fmap_ext.
Qed.

(** The promotion loop overrides the map with what it builds from nothing. *)
Lemma promote_assets_union (record : IngestionRecord) (l : list Asset)
    (m : gmap string StoredAsset) :
  promote_assets record l m = promote_assets record l ∅ ∪ m.
Proof.
  unfold promote_assets. induction l as [| a l IH] using rev_ind.
  - simpl. by rewrite (left_id_L ∅ (∪)).
  - rewrite !foldl_app. simpl. rewrite IH. by rewrite insert_union_l.
Qed.

Lemma promote_assets_idem (record : IngestionRecord) (l : list Asset)
    (m : gmap string StoredAsset) :
  promote_assets record l (promote_assets record l m)
  = promote_assets record l m.
Proof.
  rewrite (promote_assets_union record l (promote_assets record l m)).
  rewrite (promote_assets_union record l m).
  rewrite (assoc_L (∪)). by rewrite (idemp_L (∪)).
Qed.

Lemma store_eta (s : DemoDataStore) :
  mkStore (user_preferences s) (user_store_links s) (ingestions s) (assets s)
    (poster_jobs s) (menu_board_jobs s) = s.
Proof. by destruct s. Qed.

(** Linking a store that the user already has changes nothing. *)
Lemma link_store_fixed (u : Z) (sid : string) (s : DemoDataStore) (l : list string) :
  is_Some (user_preferences s !! u) ->
  user_store_links s !! u = Some l -> sid ∈ l ->
  link_store u sid s = s.
Proof.
  intros [p Hp] Hl Hsid. unfold link_store, ensure_user_state.
  rewrite Hp, Hl. simpl. rewrite Hl. rewrite decide_True by assumption.
  apply store_eta.
Qed.

Lemma link_store_preferences (u v : Z) (sid : string) (s : DemoDataStore) :
  is_Some (user_preferences (link_store u sid s) !! u)
  /\ (is_Some (user_preferences s !! v) ->
      is_Some (user_preferences (link_store u sid s) !! v)).
Proof.
  assert (user_preferences (link_store u sid s)
          = user_preferences (ensure_user_state u s)) as ->.
  { unfold link_store.
    destruct (user_store_links (ensure_user_state u s) !! u);
      [case_decide |]; reflexivity. }
  unfold ensure_user_state. simpl.
  destruct (user_preferences s !! u) as [p |] eqn:Hp.
  - rewrite Hp. eauto.
  - rewrite lookup_insert_eq. split; [eauto |].
    intros [q Hq]. destruct (decide (v = u)) as [-> | Hne]; [congruence |].
    rewrite lookup_insert_ne by congruence. eauto.
Qed.

Lemma link_all_preferences (sid : string) (users : list Z) :
  forall (s : DemoDataStore),
    let s' := foldl (fun acc user_id => link_store user_id sid acc) s users in
    (forall v, is_Some (user_preferences s !! v) ->
               is_Some (user_preferences s' !! v))
    /\ (forall v, v ∈ users -> is_Some (user_preferences s' !! v)).
Proof.
  induction users as [| u users IH]; intros s; simpl.
  - split; [auto |]. intros v Hv. by apply elem_of_nil in Hv.
  - destruct (IH (link_store u sid s)) as (Hkeep & Hin). split.
    + intros v Hv. apply Hkeep.
      by apply (proj2 (link_store_preferences u v sid s)).
    + intros v Hv. apply elem_of_cons in Hv as [-> | Hv].
      * apply Hkeep. apply (proj1 (link_store_preferences u u sid s)).
      * by apply Hin.
Qed.

Lemma link_all_fixed (sid : string) (s : DemoDataStore) (users : list Z) :
  (forall u, u ∈ users ->
     is_Some (user_preferences s !! u)
     /\ exists l, user_store_links s !! u = Some l /\ sid ∈ l) ->
  foldl (fun acc user_id => link_store user_id sid acc) s users = s.
Proof.
  induction users as [| u users IH]; intros Hall; simpl; [reflexivity |].
  destruct (Hall u) as (Hp & l & Hl & Hsid); [apply list_elem_of_here |].
  rewrite (link_store_fixed u sid s l Hp Hl Hsid).
  apply IH. intros v Hv. apply Hall. by apply list_elem_of_further.
Qed.

Lemma map_keys_dom (m : gmap Z (list string)) (v : Z) :
  v ∈ (map_to_list m).*1 <-> v ∈ dom m.
Proof.
  rewrite elem_of_dom, list_elem_of_fmap. split.
  - intros ([k l] & -> & Hkl). apply elem_of_map_to_list in Hkl. eauto.
  - intros [l Hl]. exists (v, l). split; [reflexivity |].
    by apply elem_of_map_to_list.
Qed.

Lemma link_store_for_asset_idem (sid : string) (s : DemoDataStore) :
  link_store_for_asset sid (link_store_for_asset sid s)
  = link_store_for_asset sid s.
Proof.
  destruct (link_store_for_asset_links sid s) as (Hin & Hout).
  unfold link_store_for_asset at 1. apply link_all_fixed.
  intros u Hu. apply map_keys_dom in Hu.
  assert (u ∈ dom (user_store_links s)) as Hu0.
  { destruct (decide (u ∈ dom (user_store_links s))) as [| Hno]; [assumption |].
    apply elem_of_dom in Hu as [l Hl]. rewrite (Hout u Hno) in Hl.
    discriminate. }
  split; [| by apply Hin].
  unfold link_store_for_asset.
  apply (link_all_preferences sid (map_to_list (user_store_links s)).*1 s).
  by apply map_keys_dom.
Qed.

(** X7. Finalizing an ingestion a second time returns what the first
    finalization returned and leaves the store exactly as the first left it:
    the same assets are promoted again, to the same entries, and no link is
    added. *)
Theorem finalize_idempotent (iid : string) (s : DemoDataStore) :
  finalize_ingestion iid (finalize_ingestion iid s).2
  = finalize_ingestion iid s.
Proof.
  unfold finalize_ingestion at 2 3.
  destruct (ingestions s !! iid) as [record |] eqn:Hrec; simpl.
  2:{ unfold finalize_ingestion. by rewrite Hrec. }
  set (r' := complete_record record).
  set (s2 := set_assets _ _).
  set (s3 := link_store_for_asset (store_id record) s2).
  destruct (link_store_for_asset_fields (store_id record) s2)
    as (Hing & Hassets & _ & _). fold s3 in Hing, Hassets.
  assert (ingestions s3 !! iid = Some r') as Hr'.
  { rewrite Hing. simpl. apply lookup_insert_eq. }
  unfold finalize_ingestion. rewrite Hr'. unfold r' in *. clear r'.
  cbv zeta. rewrite complete_record_idem.
  change (selected_assets (complete_record record))
    with (selected_assets record).
  change (store_id (complete_record record)) with (store_id record).
  f_equal.
  assert (set_assets
            (promote_assets (complete_record record) (selected_assets record)
               (assets (set_ingestions
                          (<[iid := complete_record record]> (ingestions s3)) s3)))
            (set_ingestions (<[iid := complete_record record]> (ingestions s3)) s3)
          = s3) as ->.
  { rewrite insert_id by exact Hr'. unfold set_assets, set_ingestions. simpl.
    rewrite Hassets. unfold s2 at 1. simpl.
    rewrite promote_assets_idem.
    etransitivity; [| apply (store_eta s3)]. f_equal.
    rewrite Hassets. reflexivity. }
  apply link_store_for_asset_idem.
Qed.

(** ** The asset groups of a new ingestion *)

Lemma build_ingestion_assets_eq (sid : string) :
  _build_ingestion_assets sid
  = [ mkGroup "logo" "Store Logo"
        [ mkAsset ("logo_1_" +:+ sid) "Store Logo 1"
            "https://images.unsplash.com/photo-1509042239860-f550ce710b93?q=80&w=800"
            true None;
          mkAsset ("logo_2_" +:+ sid) "Store Logo 2"
            "https://images.unsplash.com/photo-1504674900247-0877df9cc836?q=80&w=800"
            false None ];
      mkGroup "menu" "Menu"
        [ mkAsset ("menu_1_" +:+ sid) "Menu 1"
            "https://images.unsplash.com/photo-1504674900247-0877df9cc836?q=80&w=800"
            true None;
          mkAsset ("menu_2_" +:+ sid) "Menu 2"
            "https://images.unsplash.com/photo-1487412720507-e7ab37603c6f?q=80&w=800"
            false None ];
      mkGroup "products" "Product Images"
        [ mkAsset ("products_1_" +:+ sid) "Product Images 1"
            "https://images.unsplash.com/photo-1487412720507-e7ab37603c6f?q=80&w=800"
            true None;
          mkAsset ("products_2_" +:+ sid) "Product Images 2"
            "https://images.unsplash.com/photo-1504674900247-0877df9cc836?q=80&w=800"
            false None ];
      mkGroup "interior" "Interior"
        [ mkAsset ("interior_1_" +:+ sid) "Interior 1"
            "https://images.unsplash.com/photo-1504674900247-0877df9cc836?q=80&w=800"
            true None;
          mkAsset ("interior_2_" +:+ sid) "Interior 2"
            "https://images.unsplash.com/photo-1509042239860-f550ce710b93?q=80&w=800"
            false None ] ].
Proof. vm_compute. reflexivity. Qed.

Lemma build_ingestion_assets_nodup (sid : string) :
  NoDup (asset_id <$> (_build_ingestion_assets sid ≫= group_assets)).
Proof.
  rewrite build_ingestion_assets_eq. simpl.
  repeat (apply NoDup_cons; split;
          [rewrite ?not_elem_of_cons; repeat split;
           try (apply not_elem_of_nil); discriminate |]).
  apply NoDup_nil. exact I.
Qed.

(** X8. For every store id, [_build_ingestion_assets] gives the four groups
    logo, menu, products and interior, each with two assets of which the
    first only is flagged as selected; the ids of the eight assets are
    pairwise different; and [group_id_from_asset] finds the group of every
    asset back from its id, whatever the store id contains. *)
Theorem build_ingestion_assets_spec (sid : string) :
  group_id <$> _build_ingestion_assets sid
  = ["logo"; "menu"; "products"; "interior"]
  /\ Forall (fun g => asset_selected <$> group_assets g = [true; false])
       (_build_ingestion_assets sid)
  /\ NoDup (asset_id <$> (_build_ingestion_assets sid ≫= group_assets))
  /\ forall g a,
       g ∈ _build_ingestion_assets sid -> a ∈ group_assets g ->
       group_id_from_asset a = group_id g
       /\ (asset_id a = group_id g +:+ "_1_" +:+ sid
           \/ asset_id a = group_id g +:+ "_2_" +:+ sid).
Proof.
  split; [by rewrite build_ingestion_assets_eq |].
  split; [rewrite build_ingestion_assets_eq; by repeat constructor |].
  split; [apply build_ingestion_assets_nodup |].
  rewrite build_ingestion_assets_eq. intros g a Hg Ha.
  repeat (apply elem_of_cons in Hg as [-> | Hg]);
    try (by apply elem_of_nil in Hg); simpl in Ha;
    repeat (apply elem_of_cons in Ha as [-> | Ha]);
    try (by apply elem_of_nil in Ha);
    (split; [reflexivity | by (left + right)]).
Qed.

(** ** From the start view to finalization *)


Lemma filter_ext_in {A : Type} (P Q : A -> Prop)
    `{!forall x, Decision (P x), !forall x, Decision (Q x)} (l : list A) :
  (forall x, x ∈ l -> (P x <-> Q x)) -> filter P l = filter Q l.
Proof.
  induction l as [| a l IH]; intros Hext; [reflexivity |].
  rewrite !filter_cons.
  rewrite IH by (intros x Hx; apply Hext; by apply list_elem_of_further).
  destruct (decide (P a)) as [Hp | Hp], (decide (Q a)) as [Hq | Hq];
    try reflexivity; exfalso;
    pose proof (Hext a (list_elem_of_here a l)); tauto.
Qed.



Lemma selected_assets_in_sync (record : IngestionRecord) :
  selection_in_sync record ->
  selected_assets record
  = filter (fun a => asset_selected a = true) (all_assets record).
Proof.
  intros Hsync. unfold selected_assets. apply filter_ext_in.
  intros a Ha. apply all_assets_elem in Ha as (g & Hg & Ha).
  pose proof (Hsync g a Hg Ha). tauto.
Qed.







(** ** Users and their stores *)

Lemma unlink_store_links (u v : Z) (sid : string) (s : DemoDataStore) :
  user_store_links (unlink_store u sid s) !! v
  = if decide (v = u) then
      Some (filter (fun _id => _id <> sid)
              (default [stores_0_id] (user_store_links s !! u)))
    else user_store_links s !! v.
Proof.
  unfold unlink_store, ensure_user_state.
  cbn [user_store_links set_user_state].
  destruct (user_store_links s !! u) as [l |] eqn:Hu; simpl.
  - rewrite Hu. simpl.
    case_decide; [subst; apply lookup_insert_eq | by apply lookup_insert_ne].
  - rewrite lookup_insert_eq. simpl.
    case_decide; [subst; apply lookup_insert_eq |].
    rewrite !lookup_insert_ne by congruence. reflexivity.
Qed.

Lemma filter_not_elem (sid : string) (l : list string) :
  sid ∉ l -> filter (fun _id => _id <> sid) l = l.
Proof.
  induction l as [| x l IH]; intros Hno; [reflexivity |].
  apply not_elem_of_cons in Hno as [Hne Hno].
  rewrite filter_cons_True by congruence. by rewrite IH.
Qed.

(** X10. [link_store] puts the store among the links of the user: at the
    end of the list when it was not there, and not at all when it was, so
    that a list without repetition stays so and linking twice is linking
    once; a user seen for the first time starts from the first store of the
    catalogue; the links of the other users are not touched. *)
Theorem link_store_spec (u : Z) (sid : string) (s : DemoDataStore) :
  let before := default ["s1"] (user_store_links s !! u) in
  exists after,
    user_store_links (link_store u sid s) !! u = Some after
    /\ sid ∈ after
    /\ (sid ∈ before -> after = before)
    /\ (sid ∉ before -> after = before ++ [sid])
    /\ (NoDup before -> NoDup after)
    /\ (forall v, v <> u ->
          user_store_links (link_store u sid s) !! v = user_store_links s !! v)
    /\ link_store u sid (link_store u sid s) = link_store u sid s.
Proof.
  intros before.
  pose proof (link_store_links u u sid s) as Hu.
  rewrite decide_True in Hu by reflexivity.
  change (default [stores_0_id] (user_store_links s !! u)) with before in Hu.
  cbv zeta in Hu.
  assert (exists after,
            user_store_links (link_store u sid s) !! u = Some after
            /\ sid ∈ after
            /\ (sid ∈ before -> after = before)
            /\ (sid ∉ before -> after = before ++ [sid])) as (after & Hafter & Hin & Hsame & Hnew).
  { destruct (decide (sid ∈ before)) as [Hsid | Hsid].
    - exists before.
      split; [exact Hu |]. split; [exact Hsid |]. split; [reflexivity |].
      intros Hno. contradiction.
    - exists (before ++ [sid]).
      split; [exact Hu |].
      split; [apply elem_of_app; right; apply list_elem_of_here |].
      split; [intros Hyes; contradiction | reflexivity]. }
  exists after. split; [exact Hafter |]. split; [exact Hin |].
  split; [exact Hsame |]. split; [exact Hnew |]. split; [| split].
  - intros Hnd. destruct (decide (sid ∈ before)) as [Hsid | Hsid].
    + by rewrite (Hsame Hsid).
    + rewrite (Hnew Hsid). apply NoDup_app. split; [exact Hnd |].
      split; [| apply NoDup_singleton].
      intros x Hx Hx'. apply list_elem_of_singleton in Hx'. by subst.
  - intros v Hne. rewrite link_store_links. by rewrite decide_False.
  - apply (link_store_fixed u sid _ after); [| exact Hafter | exact Hin].
    apply (proj1 (link_store_preferences u u sid s)).
Qed.

(** X11. [unlink_store] removes every occurrence of the store from the
    links of the user and keeps the other links in their order; the links
    of the other users are not touched; and unlinking a store right after
    linking it gives back the links the user had, if the store was not
    among them. *)
Theorem unlink_store_spec (u : Z) (sid : string) (s : DemoDataStore) :
  let before := default ["s1"] (user_store_links s !! u) in
  user_store_links (unlink_store u sid s) !! u
    = Some (filter (fun x => x <> sid) before)
  /\ (forall after, user_store_links (unlink_store u sid s) !! u = Some after ->
        (sid ∉ after)
        /\ (forall x, x <> sid -> (x ∈ after <-> x ∈ before))
        /\ sublist after before)
  /\ (forall v, v <> u ->
        user_store_links (unlink_store u sid s) !! v = user_store_links s !! v)
  /\ (sid ∉ before ->
        user_store_links (unlink_store u sid (link_store u sid s)) !! u
        = Some before).
Proof.
  intros before.
  pose proof (unlink_store_links u u sid s) as Hu.
  rewrite decide_True in Hu by reflexivity.
  change (default [stores_0_id] (user_store_links s !! u)) with before in Hu.
  split; [exact Hu |]. split; [| split].
  - intros after Hafter. rewrite Hu in Hafter. injection Hafter as <-.
    split; [| split].
    + rewrite list_elem_of_filter. tauto.
    + intros x Hx. rewrite list_elem_of_filter. tauto.
    + apply sublist_filter.
  - intros v Hne. rewrite unlink_store_links. by rewrite decide_False.
  - intros Hno. rewrite unlink_store_links, decide_True by reflexivity.
    rewrite link_store_links, decide_True by reflexivity. simpl.
    change (default [stores_0_id] (user_store_links s !! u)) with before.
    rewrite decide_False by exact Hno. f_equal.
    rewrite filter_app, filter_not_elem by exact Hno.
    rewrite filter_cons_False by tauto. apply app_nil_r.
Qed.

Lemma ensure_user_state_links (u v : Z) (s : DemoDataStore) :
  user_store_links (ensure_user_state u s) !! v
  = if decide (v = u)
    then Some (default [stores_0_id] (user_store_links s !! u))
    else user_store_links s !! v.
Proof.
  unfold ensure_user_state. simpl.
  destruct (user_store_links s !! u) as [l |] eqn:Hu; simpl.
  - case_decide; [by subst | reflexivity].
  - case_decide; [subst; apply lookup_insert_eq | by apply lookup_insert_ne].
Qed.

(** Every store of the catalogue is found under its id. *)
Lemma get_store_found (store : StoreInfo) :
  store ∈ stores -> get_store (si_id store) = Some store.
Proof.
  unfold stores. intros Hin.
  repeat (apply elem_of_cons in Hin as [-> | Hin]);
    try (by apply elem_of_nil in Hin); reflexivity.
Qed.

Lemma get_store_Some (sid : string) (store : StoreInfo) :
  get_store sid = Some store <-> store ∈ stores /\ si_id store = sid.
Proof.
  split.
  - intros Hget. apply head_Some_elem_of in Hget.
    apply list_elem_of_filter in Hget. tauto.
  - intros [Hin <-]. by apply get_store_found.
Qed.

(** X12. The stores of a user, as [get_user_stores] returns them, are the
    stores of the catalogue that [get_store] finds for the ids linked to
    the user (for a user seen for the first time, the first store of the
    catalogue): they come in the order of the catalogue and none twice, even
    when an id is linked twice, and a linked id that the catalogue does not
    have is passed over. *)
Theorem get_user_stores_spec (u : Z) (s : DemoDataStore) :
  let linked := default ["s1"] (user_store_links s !! u) in
  let result := (get_user_stores u s).1 in
  (forall store, store ∈ result <-> store ∈ stores /\ si_id store ∈ linked)
  /\ (forall store, store ∈ result <->
        exists sid, sid ∈ linked /\ get_store sid = Some store)
  /\ sublist result stores
  /\ NoDup result
  /\ (forall sid, get_store sid = None ->
        forall store, store ∈ result -> si_id store <> sid).
Proof.
  intros linked result.
  assert (result
          = filter (fun store => si_id store ∈ (list_to_set linked : gset string))
              stores) as Hres.
  { unfold result, get_user_stores. cbv zeta.
    pose proof (ensure_user_state_links u u s) as Hu.
    rewrite decide_True in Hu by reflexivity. rewrite Hu. reflexivity. }
  assert (forall store, store ∈ result <-> store ∈ stores /\ si_id store ∈ linked)
    as Hmem.
  { intros store. rewrite Hres, list_elem_of_filter, elem_of_list_to_set. tauto. }
  split; [exact Hmem |]. split; [| split; [| split]].
  - intros store. rewrite Hmem. split.
    + intros [Hin Hlinked]. exists (si_id store).
      split; [exact Hlinked | by apply get_store_found].
    + intros (sid & Hlinked & Hget). apply get_store_Some in Hget as [Hin <-].
      by split.
  - rewrite Hres. apply sublist_filter.
  - rewrite Hres. apply NoDup_filter. unfold stores.
    repeat (apply NoDup_cons; split;
            [rewrite ?not_elem_of_cons; repeat split;
             try (apply not_elem_of_nil); discriminate |]).
    apply NoDup_nil. exact I.
  - intros sid Hnone store Hin Hid. apply Hmem in Hin as [Hin _].
    rewrite <- Hid, (get_store_found store Hin) in Hnone. discriminate.
Qed.

(** X13. The default store of a user is the first of the links. A user
    seen for the first time has the first store of the catalogue as default;
    a user whose list of links is empty has none, and nothing restores the
    initial link: after unlinking the only store linked, there is no default
    store, [get_user_stores] is empty and [ensure_user_state] keeps the
    empty list. *)
Theorem default_store_spec (u : Z) (s : DemoDataStore) :
  (user_store_links s !! u = None ->
     (get_default_store_id u s).1 = Some "s1")
  /\ (forall first rest, user_store_links s !! u = Some (first :: rest) ->
        (get_default_store_id u s).1 = Some first)
  /\ (user_store_links s !! u = Some [] ->
        (get_default_store_id u s).1 = None
        /\ user_store_links (get_default_store_id u s).2 !! u = Some [])
  /\ (forall sid l, user_store_links s !! u = Some l ->
        (forall x, x ∈ l -> x = sid) ->
        (get_default_store_id u (unlink_store u sid s)).1 = None
        /\ (get_user_stores u (unlink_store u sid s)).1 = []
        /\ user_store_links (ensure_user_state u (unlink_store u sid s)) !! u
           = Some []).
Proof.
  assert (forall s0 l, user_store_links s0 !! u = Some l ->
            user_store_links (ensure_user_state u s0) !! u = Some l) as Hkeep.
  { intros s0 l Hl. rewrite ensure_user_state_links, decide_True by reflexivity.
    by rewrite Hl. }
  split; [| split; [| split]].
  - intros Hnone. unfold get_default_store_id. cbv zeta. cbn [fst snd].
    rewrite ensure_user_state_links, decide_True, Hnone by reflexivity.
    reflexivity.
  - intros first rest Hl. unfold get_default_store_id. cbv zeta. cbn [fst snd].
    by rewrite (Hkeep s _ Hl).
  - intros Hl. unfold get_default_store_id. cbv zeta. cbn [fst snd].
    by rewrite (Hkeep s _ Hl).
  - intros sid l Hl Hall.
    assert (user_store_links (unlink_store u sid s) !! u = Some []) as Hempty.
    { rewrite unlink_store_links, decide_True, Hl by reflexivity. simpl.
      f_equal. clear Hl. induction l as [| x l IH]; [reflexivity |].
      rewrite filter_cons_False.
      - apply IH. intros y Hy. apply Hall. by apply list_elem_of_further.
      - intros Hne. apply Hne. apply Hall. apply list_elem_of_here. }
    pose proof (Hkeep _ _ Hempty) as Hempty'.
    unfold get_default_store_id, get_user_stores. cbv zeta. rewrite Hempty'.
    repeat split.
Qed.

Lemma default_store_spec_witness :
  (get_default_store_id sample_user empty_store).1 = Some "s1"
  /\ (get_default_store_id sample_user
        (unlink_store sample_user "s1" (ensure_user_state sample_user empty_store))).1
     = None.
Proof.
  destruct (default_store_spec sample_user empty_store) as (Hnew & _).
  destruct (default_store_spec sample_user
              (ensure_user_state sample_user empty_store))
    as (_ & _ & _ & Hgone).
  split; [apply Hnew; reflexivity |].
  apply (Hgone "s1" ["s1"]); [reflexivity |].
  intros x Hx. by apply list_elem_of_singleton in Hx.
Defined.

(** ** Stored assets *)

(** X14. [create_asset] stores the asset under the id given, or, when the
    id given is missing or empty, under a generated id that starts with
    ["asset_"]; whatever was stored under that id before is replaced and no
    other asset changes; [get_asset] then returns the asset created, with
    the default URL when none is given; and deleting it again restores the
    assets as they were when the id was new. *)
Theorem create_asset_spec (name category sid : string) (aid url : option string)
    (hex : string) (s : DemoDataStore) :
  let key := if truthy aid then or_else aid "" else "asset_" +:+ hex in
  let created := (create_asset name category sid aid url hex s).1 in
  let s' := (create_asset name category sid aid url hex s).2 in
  created
    = mkStoredAsset key name
        (if truthy url then or_else url "" else default_asset_url) category sid
  /\ get_asset key s' = Some created
  /\ (forall other, other <> key -> get_asset other s' = get_asset other s)
  /\ delete_asset key s' = (true, set_assets (delete key (assets s)) s)
  /\ (get_asset key s = None -> (delete_asset key s').2 = s)
  /\ ingestions s' = ingestions s
  /\ user_store_links s' = user_store_links s.
Proof.
  intros key created s'.
  assert (or_else aid (_uid "asset" hex) = key) as Hkey.
  { unfold key. by destruct aid as [[| c r] |]. }
  assert (or_else url default_asset_url
          = if truthy url then or_else url "" else default_asset_url) as Hurl.
  { by destruct url as [[| c r] |]. }
  unfold created, s', create_asset, get_asset, delete_asset. cbv zeta.
  rewrite Hkey, Hurl. simpl.
  split; [reflexivity |]. split; [apply lookup_insert_eq |].
  split; [intros other Hne; by apply lookup_insert_ne |].
  rewrite lookup_insert_eq. simpl.
  split; [by rewrite delete_insert_eq |].
  split; [| by split].
  intros Hnone. rewrite delete_insert_eq.
  unfold get_asset in Hnone. rewrite delete_id by exact Hnone.
  by destruct s.
Qed.

(** X15. [delete_asset] answers [True] exactly when the id was stored;
    afterwards the id is not stored, the other assets are unchanged, and a
    second deletion answers [False] and changes nothing. *)
Theorem delete_asset_spec (aid : string) (s : DemoDataStore) :
  let deleted := (delete_asset aid s).1 in
  let s' := (delete_asset aid s).2 in
  (deleted = true <-> is_Some (get_asset aid s))
  /\ get_asset aid s' = None
  /\ (forall other, other <> aid -> get_asset other s' = get_asset other s)
  /\ delete_asset aid s' = (false, s')
  /\ (deleted = false -> s' = s).
Proof.
  unfold delete_asset, get_asset.
  destruct (assets s !! aid) as [a |] eqn:Ha; simpl.
  - split; [split; eauto |]. split; [apply lookup_delete_eq |].
    split; [intros other Hne; by apply lookup_delete_ne |].
    split; [by rewrite lookup_delete_eq | discriminate].
  - split; [split; [discriminate | intros [? ?]; discriminate] |].
    split; [exact Ha |]. split; [reflexivity |].
    split; [by rewrite Ha | reflexivity].
Qed.

Lemma values_elem_of (m : gmap string StoredAsset) (a : StoredAsset) :
  a ∈ (map_to_list m).*2 <-> exists k, m !! k = Some a.
Proof.
  rewrite list_elem_of_fmap. split.
  - intros ([k a'] & -> & Hin). exists k. by apply elem_of_map_to_list.
  - intros [k Hk]. exists (k, a). split; [reflexivity |].
    by apply elem_of_map_to_list.
Qed.

(** X16. [list_assets] returns stored assets only, and a stored asset is
    returned exactly when it passes both filters: its store id is the one
    asked for, unless none or the empty string is asked for, and its
    category is the one asked for, unless none, the empty string or
    ["all"] is asked for. *)
Theorem list_assets_spec (sid category : option string) (s : DemoDataStore)
    (a : StoredAsset) :
  a ∈ list_assets sid category s
  <-> (exists k, assets s !! k = Some a)
      /\ (truthy sid = true -> Some (sa_storeId a) = sid)
      /\ (truthy category = true -> category <> Some "all" ->
          Some (sa_category a) = category).
Proof.
  unfold list_assets. cbv zeta.
  assert (forall o : option string,
            truthy o = true -> forall x, (x = or_else o "" <-> Some x = o)) as Hor.
  { intros [[| c r] |] Ht x; try discriminate. simpl.
    split; intros H; congruence. }
  assert (truthy category = true ->
          (String.eqb (or_else category "") "all" = true
           <-> category = Some "all")) as Hall.
  { intros Ht. rewrite String.eqb_eq.
    destruct category as [[| c r] |]; try discriminate. simpl.
    split; intros H; congruence. }
  pose proof (Hor sid) as Hs. pose proof (Hor category) as Hc. clear Hor.
  specialize (Hs) with (x := sa_storeId a).
  specialize (Hc) with (x := sa_category a).
  destruct (truthy sid), (truthy category); simpl;
    try (destruct (String.eqb (or_else category "") "all"); simpl);
    rewrite ?list_elem_of_filter, values_elem_of;
    intuition (try discriminate; try congruence).
Qed.

Lemma insert_keyed (m : gmap string StoredAsset) (a : StoredAsset) :
  (forall k b, m !! k = Some b -> sa_id b = k) ->
  forall k b, <[sa_id a := a]> m !! k = Some b -> sa_id b = k.
Proof.
  intros Hm k b. destruct (decide (sa_id a = k)) as [<- | Hne].
  - rewrite lookup_insert_eq. by intros [= <-].
  - rewrite lookup_insert_ne by exact Hne. apply Hm.
Qed.

Lemma promote_assets_keyed (record : IngestionRecord) (l : list Asset) :
  forall (m : gmap string StoredAsset),
    (forall k b, m !! k = Some b -> sa_id b = k) ->
    forall k b, promote_assets record l m !! k = Some b -> sa_id b = k.
Proof.
  unfold promote_assets. induction l as [| a l IH]; intros m Hm; simpl.
  - exact Hm.
  - apply IH. apply (insert_keyed m (asset_copy record a) Hm).
Qed.

Lemma create_asset_keyed (name category sid : string) (aid url : option string)
    (hex : string) (s : DemoDataStore) :
  assets_keyed s ->
  assets_keyed (create_asset name category sid aid url hex s).2.
Proof.
  intros Hs. unfold assets_keyed, create_asset. cbv zeta. simpl.
  apply (insert_keyed (assets s)
           (mkStoredAsset (or_else aid (_uid "asset" hex)) name
              (or_else url default_asset_url) category sid) Hs).
Qed.

Lemma finalize_ingestion_keyed (iid : string) (s : DemoDataStore) :
  assets_keyed s -> assets_keyed (finalize_ingestion iid s).2.
Proof.
  intros Hs. unfold finalize_ingestion.
  destruct (ingestions s !! iid) as [record |]; [| exact Hs].
  cbv zeta. unfold assets_keyed. cbn [snd].
  match goal with
  | |- context [link_store_for_asset ?a ?b] =>
      destruct (link_store_for_asset_fields a b) as (_ & -> & _)
  end.
  simpl. by apply promote_assets_keyed.
Qed.

(** X17. Every stored asset carries the id it is stored under, and every
    operation that writes assets keeps it so: creating and deleting an
    asset, finalizing an ingestion, saving a job, and the calls on an
    ingestion. *)
Theorem assets_stay_keyed (s : DemoDataStore) :
  assets_keyed s ->
  (forall name category sid aid url hex,
     assets_keyed (create_asset name category sid aid url hex s).2)
  /\ (forall aid, assets_keyed (delete_asset aid s).2)
  /\ (forall iid, assets_keyed (finalize_ingestion iid s).2)
  /\ (forall kind jid hex, assets_keyed (SaveJob kind jid hex s).2)
  /\ (forall iid ops s', perform_all iid ops s = Some s' -> assets_keyed s').
Proof.
  intros Hs. split; [| split; [| split; [| split]]].
  - intros. by apply create_asset_keyed.
  - intros aid. unfold delete_asset.
    destruct (assets s !! aid) eqn:Ha; [| exact Hs].
    intros k b. simpl. destruct (decide (aid = k)) as [<- | Hne].
    + by rewrite lookup_delete_eq.
    + rewrite lookup_delete_ne by exact Hne. apply Hs.
  - intros iid. by apply finalize_ingestion_keyed.
  - intros kind jid hex.
    destruct kind; simpl;
      unfold PosterGenerationSaveView_post, MenuBoardGenerationSaveView_post,
        save_poster_job, save_menu_board_job.
    + destruct (poster_jobs s !! jid) as [job |]; [| exact Hs].
      case_decide; [exact Hs |].
      apply (create_asset_keyed _ "poster" stores_0_id None None hex s Hs).
    + destruct (menu_board_jobs s !! jid) as [job |]; [| exact Hs].
      case_decide; [exact Hs |].
      apply (create_asset_keyed "Menu Board" "menu" stores_0_id None None hex s Hs).
  - intros iid ops. revert s Hs.
    induction ops as [| o rest IH]; intros s Hs s'; simpl.
    + by intros [= <-].
    + destruct (perform iid o s) as [s1 |] eqn:Hs1; [| discriminate].
      apply IH. destruct o as [now | | ids |]; simpl in Hs1.
      * unfold get_ingestion in Hs1. destruct (ingestions s !! iid) as [r |].
        -- destruct (_refresh_ingestion_progress r now); [| discriminate].
           by injection Hs1 as <-.
        -- by injection Hs1 as <-.
      * unfold cancel_ingestion in Hs1.
        destruct (ingestions s !! iid); by injection Hs1 as <-.
      * unfold record_selection in Hs1.
        destruct (ingestions s !! iid); by injection Hs1 as <-.
      * injection Hs1 as <-. by apply finalize_ingestion_keyed.
Qed.

Lemma assets_stay_keyed_witness :
  assets_keyed
    (finalize_ingestion (_uid "ing" sample_hex)
       (start_ingestion "s1" sample_hex 0 empty_store).2).2.
Proof.
  apply (assets_stay_keyed (start_ingestion "s1" sample_hex 0 empty_store).2).
  intros k a. simpl. rewrite lookup_empty. discriminate.
Defined.

(** ** Jobs along a history *)

Lemma progress_job_status_irrelevant (job : Job) (kind : JobKind) (now : Z)
    (st : JobStatus) :
  st = queued \/ st = running ->
  job_status job = queued \/ job_status job = running ->
  _progress_job (set_job_status st job) kind now = _progress_job job kind now.
Proof.
  intros Hst Hjob. unfold _progress_job. simpl.
  rewrite decide_False by (destruct Hst; subst; intros [? | ?]; discriminate).
  rewrite decide_False by (destruct Hjob as [E | E]; rewrite E;
                           intros [? | ?]; discriminate).
  destruct (gt_int _ 10); [reflexivity |]. destruct (gt_int _ 2); reflexivity.
Qed.

Lemma progress_job_later (job : Job) (kind : JobKind) (now1 now2 : Z) :
  (now1 <= now2)%Z ->
  _progress_job (_progress_job job kind now1) kind now2
  = _progress_job job kind now2.
Proof.
  intros Hle.
  destruct (decide (job_status job = failed \/ job_status job = succeeded))
    as [Hterm | Hrun].
  - rewrite (progress_job_terminal job kind now1) by tauto. reflexivity.
  - assert (job_status job = queued \/ job_status job = running) as Hjob.
    { destruct (job_status job); tauto. }
    unfold _progress_job at 2. rewrite decide_False by exact Hrun.
    destruct (gt_int (elapsed_since (createdAt job) now1) 10) eqn:H1.
    + rewrite progress_job_terminal by (left; reflexivity).
      unfold _progress_job. rewrite decide_False by exact Hrun.
      assert (gt_int (elapsed_since (createdAt job) now2) 10 = true) as ->;
        [| reflexivity].
      apply gt_int_true. apply gt_int_true in H1.
      eapply Qlt_le_trans; [exact H1 | by apply elapsed_since_mono].
    + destruct (gt_int (elapsed_since (createdAt job) now1) 2);
        apply progress_job_status_irrelevant; auto.
Qed.

Lemma progress_job_all_last (kind : JobKind) (times : list Z) (now : Z) :
  forall job,
    Forall (fun t => (t <= now)%Z) times ->
    progress_job_all job kind (times ++ [now]) = _progress_job job kind now.
Proof.
  induction times as [| t rest IH]; intros job Hall; simpl; [reflexivity |].
  apply Forall_cons in Hall as [Ht Hrest].
  rewrite IH by exact Hrest. by apply progress_job_later.
Qed.

Lemma set_jobs_twice (kind : JobKind) (m1 m2 : gmap string Job)
    (s : DemoDataStore) :
  set_jobs kind m2 (set_jobs kind m1 s) = set_jobs kind m2 s.
Proof. by destruct kind. Qed.

Lemma set_jobs_same (kind : JobKind) (s : DemoDataStore) :
  set_jobs kind (jobs_of kind s) s = s.
Proof. by destruct kind, s. Qed.

Lemma get_job_known (kind : JobKind) (jid : string) (now : Z)
    (s : DemoDataStore) (job : Job) :
  jobs_of kind s !! jid = Some job ->
  GetJob kind jid now s
  = (Some (_progress_job job kind now),
     set_jobs kind (<[jid := _progress_job job kind now]> (jobs_of kind s)) s).
Proof.
  intros Hjob.
  destruct kind; simpl in *; unfold get_poster_job, get_menu_board_job;
    by rewrite Hjob.
Qed.

Lemma get_job_all_known (kind : JobKind) (jid : string) (times : list Z) :
  forall (s : DemoDataStore) (job : Job),
    jobs_of kind s !! jid = Some job ->
    get_job_all kind jid times s
    = set_jobs kind (<[jid := progress_job_all job kind times]> (jobs_of kind s)) s.
Proof.
  induction times as [| t rest IH]; intros s job Hjob; simpl.
  - rewrite insert_id by exact Hjob. by rewrite set_jobs_same.
  - rewrite (get_job_known kind jid t s job Hjob). cbn [snd].
    rewrite (IH _ (_progress_job job kind t)).
    + rewrite jobs_of_set_jobs, insert_insert_eq. apply set_jobs_twice.
    + rewrite jobs_of_set_jobs. apply lookup_insert_eq.
Qed.

(** X18. With a clock that does not run backwards, what a read of a job
    shows and stores does not depend on the reads before it: reading at any
    earlier times first and then at [now] leaves the job, and the store,
    exactly as a single read at [now] does. *)
Theorem job_reads_collapse (kind : JobKind) (jid : string) (times : list Z)
    (now : Z) (s : DemoDataStore) (job : Job) :
  jobs_of kind s !! jid = Some job ->
  Forall (fun t => (t <= now)%Z) times ->
  progress_job_all job kind (times ++ [now]) = _progress_job job kind now
  /\ get_job_all kind jid (times ++ [now]) s = (GetJob kind jid now s).2.
Proof.
  intros Hjob Hall. split; [by apply progress_job_all_last |].
  rewrite (get_job_all_known kind jid _ s job Hjob).
  rewrite (get_job_known kind jid now s job Hjob). cbn [snd].
  by rewrite progress_job_all_last.
Qed.

Lemma job_reads_collapse_witness :
  get_job_all poster (_uid "poster_job" sample_hex)
    ([1000000; 5000000] ++ [12000000])%Z
    (create_poster_job None sample_hex 0 empty_store).2
  = (GetJob poster (_uid "poster_job" sample_hex) 12000000
       (create_poster_job None sample_hex 0 empty_store).2).2.
Proof.
  apply (job_reads_collapse poster (_uid "poster_job" sample_hex)
           [1000000; 5000000]%Z 12000000
           (create_poster_job None sample_hex 0 empty_store).2
           (mkJob (_uid "poster_job" sample_hex) queued None None None 0)).
  - vm_compute. reflexivity.
  - repeat constructor; lia.
Defined.

Lemma save_job_failed_fixed (kind : JobKind) (jid hex : string)
    (s : DemoDataStore) (job : Job) :
  jobs_of kind s !! jid = Some job ->
  job_status job = failed ->
  error job = Some not_finished ->
  SaveJob kind jid hex s = (job_not_ready, s).
Proof.
  intros Hjob Hst Herr.
  assert (set_job_error (Some not_finished) (set_job_status failed job) = job)
    as Hsame.
  { destruct job. simpl in *. by subst. }
  destruct kind; simpl in *;
    unfold PosterGenerationSaveView_post, MenuBoardGenerationSaveView_post,
      save_poster_job, save_menu_board_job;
    rewrite Hjob; (rewrite decide_True by congruence); simpl;
    rewrite Hsame, insert_id by exact Hjob; by destruct s.
Qed.

Lemma job_calls_failed_fixed (kind : JobKind) (jid : string)
    (ops : list JobOp) (s : DemoDataStore) (job : Job) :
  jobs_of kind s !! jid = Some job ->
  job_status job = failed ->
  error job = Some not_finished ->
  job_calls kind jid ops s = s.
Proof.
  intros Hjob Hst Herr. induction ops as [| o rest IH]; simpl; [reflexivity |].
  destruct o as [now | hex]; simpl.
  - rewrite (get_job_terminal kind jid now s job Hjob) by (by right). exact IH.
  - rewrite (save_job_failed_fixed kind jid hex s job Hjob Hst Herr). exact IH.
Qed.

(** X19. A job that is saved before it has succeeded can never be saved
    afterwards: after that first save, whatever reads and saves follow, the
    store does not change any more, every save is answered with
    [job_not_ready], and no asset is ever created for the job. *)
Theorem premature_save_is_final (kind : JobKind) (jid hex : string)
    (s : DemoDataStore) (job : Job) (ops : list JobOp) (hex' : string) :
  jobs_of kind s !! jid = Some job ->
  job_status job <> succeeded ->
  let s1 := (SaveJob kind jid hex s).2 in
  (SaveJob kind jid hex s).1 = job_not_ready
  /\ job_calls kind jid ops s1 = s1
  /\ SaveJob kind jid hex' (job_calls kind jid ops s1) = (job_not_ready, s1)
  /\ assets s1 = assets s
  /\ exists job', jobs_of kind s1 !! jid = Some job'
                  /\ job_status job' = failed.
Proof.
  intros Hjob Hst s1.
  assert (exists job',
            SaveJob kind jid hex s
            = (job_not_ready,
               set_jobs kind (<[jid := job']> (jobs_of kind s)) s)
            /\ job_status job' = failed /\ error job' = Some not_finished)
    as (job' & Hsave & Hfailed & Herr).
  { destruct kind; simpl in *;
      unfold PosterGenerationSaveView_post, MenuBoardGenerationSaveView_post,
        save_poster_job, save_menu_board_job;
      rewrite Hjob; (rewrite decide_True by exact Hst);
      eexists; simpl; repeat split. }
  unfold s1. rewrite Hsave. cbn [fst snd].
  set (s' := set_jobs kind _ s).
  assert (jobs_of kind s' !! jid = Some job') as Hjob'.
  { unfold s'. rewrite jobs_of_set_jobs. apply lookup_insert_eq. }
  split; [reflexivity |].
  rewrite (job_calls_failed_fixed kind jid ops s' job' Hjob' Hfailed Herr).
  split; [reflexivity |].
  split; [apply (save_job_failed_fixed kind jid hex' s' job' Hjob' Hfailed Herr) |].
  split; [unfold s'; by destruct kind |].
  exists job'. by split.
Qed.

Lemma premature_save_is_final_witness :
  SaveJob poster (_uid "poster_job" sample_hex) "ffffffffffff"
    (job_calls poster (_uid "poster_job" sample_hex)
       [ReadJob 60000000; SaveJobOp "cccccccccccc"]
       (SaveJob poster (_uid "poster_job" sample_hex) "ba9876543210"
          (create_poster_job None sample_hex 0 empty_store).2).2)
  = (job_not_ready,
     (SaveJob poster (_uid "poster_job" sample_hex) "ba9876543210"
        (create_poster_job None sample_hex 0 empty_store).2).2).
Proof.
  apply (premature_save_is_final poster (_uid "poster_job" sample_hex)
           "ba9876543210" (create_poster_job None sample_hex 0 empty_store).2
           (mkJob (_uid "poster_job" sample_hex) queued None None None 0)
           [ReadJob 60000000; SaveJobOp "cccccccccccc"] "ffffffffffff").
  - vm_compute. reflexivity.
  - discriminate.
Defined.

(** ** Result and error of a job *)

Lemma progress_job_consistent (job : Job) (kind : JobKind) (now : Z) :
  job_consistent job -> job_consistent (_progress_job job kind now).
Proof.
  intros (Hs & Hn & Hf & He). unfold _progress_job.
  case_decide as Hterm; [by repeat split |].
  assert (job_status job <> failed /\ job_status job <> succeeded) as [Hnf Hns]
    by tauto.
  destruct (gt_int _ 10); [| destruct (gt_int _ 2)];
    unfold job_consistent; simpl; repeat split;
    intros; try discriminate; try congruence; auto.
Qed.

Lemma job_call_consistent (kind : JobKind) (jid : string) (o : JobOp)
    (s : DemoDataStore) (job : Job) :
  jobs_of kind s !! jid = Some job ->
  job_consistent job ->
  exists job',
    jobs_of kind (job_call kind jid o s) !! jid = Some job'
    /\ job_consistent job'
    /\ job_id job' = job_id job
    /\ createdAt job' = createdAt job.
Proof.
  intros Hjob Hcons. destruct o as [now | hex]; simpl.
  - rewrite (get_job_known kind jid now s job Hjob). cbn [snd].
    exists (_progress_job job kind now).
    split; [rewrite jobs_of_set_jobs; apply lookup_insert_eq |].
    split; [by apply progress_job_consistent |].
    unfold _progress_job. case_decide; [by split |].
    destruct (gt_int _ 10); [| destruct (gt_int _ 2)]; by split.
  - destruct (decide (job_status job = succeeded)) as [Hst | Hst].
    + exists job. split; [| split; [exact Hcons | by split]].
      destruct kind; simpl in *;
        unfold PosterGenerationSaveView_post, MenuBoardGenerationSaveView_post,
          save_poster_job, save_menu_board_job;
        rewrite Hjob; (rewrite decide_False by tauto); exact Hjob.
    + exists (set_job_error (Some not_finished) (set_job_status failed job)).
      split.
      * destruct kind; simpl in *;
          unfold PosterGenerationSaveView_post, MenuBoardGenerationSaveView_post,
            save_poster_job, save_menu_board_job;
          rewrite Hjob; (rewrite decide_True by exact Hst); simpl;
          apply lookup_insert_eq.
      * destruct Hcons as (_ & Hn & _ & _).
        unfold job_consistent. simpl. repeat split;
          intros; try discriminate; try congruence; auto.
Qed.

(** X20. From its creation on and along every sequence of reads and
    saves, a job has a result URL exactly when it has succeeded, and then
    the URL built from its id, and an error exactly when it has failed, and
    then ["Job is not finished yet."]; it keeps its id and its creation
    time. *)
Theorem job_result_and_error (kind : JobKind) (payload_headline : option string)
    (hex : string) (t0 : Z) (s0 : DemoDataStore) (ops : list JobOp) :
  let job0 := (StartJob kind payload_headline hex t0 s0).1 in
  let s := job_calls kind (job_id job0) ops
             (StartJob kind payload_headline hex t0 s0).2 in
  exists job,
    jobs_of kind s !! job_id job0 = Some job
    /\ job_id job = job_id job0
    /\ createdAt job = t0
    /\ (job_status job = succeeded <->
          resultUrl job = Some (result_url_prefix +:+ job_id job))
    /\ (job_status job <> succeeded <-> resultUrl job = None)
    /\ (job_status job = failed <->
          error job = Some "Job is not finished yet.")
    /\ (job_status job <> failed <-> error job = None).
Proof.
  intros job0 s.
  assert (forall s1 job1,
            jobs_of kind s1 !! job_id job0 = Some job1 ->
            job_consistent job1 ->
            exists job,
              jobs_of kind (job_calls kind (job_id job0) ops s1) !! job_id job0
              = Some job
              /\ job_consistent job
              /\ job_id job = job_id job1
              /\ createdAt job = createdAt job1) as Hgen.
  { induction ops as [| o rest IH]; intros s1 job1 Hjob1 Hcons1; simpl.
    - exists job1. auto.
    - destruct (job_call_consistent kind (job_id job0) o s1 job1 Hjob1 Hcons1)
        as (job2 & Hjob2 & Hcons2 & Hid2 & Ht2).
      destruct (IH _ job2 Hjob2 Hcons2) as (job & Hjob & Hcons & Hid & Ht).
      exists job. split; [exact Hjob |]. split; [exact Hcons |].
      split; congruence. }
  destruct (Hgen (StartJob kind payload_headline hex t0 s0).2 job0)
    as (job & Hjob & (Hs & Hn & Hf & He) & Hid & Ht).
  { unfold job0. destruct kind; simpl; apply lookup_insert_eq. }
  { unfold job0. destruct kind; unfold job_consistent; simpl;
      repeat split; intros; try discriminate; congruence. }
  exists job. split; [exact Hjob |]. split; [exact Hid |].
  split; [rewrite Ht; unfold job0; by destruct kind |].
  change "Job is not finished yet." with not_finished.
  repeat split; try assumption.
  - intros Hurl. destruct (decide (job_status job = succeeded)) as [| Hno];
      [assumption |]. rewrite (Hn Hno) in Hurl. discriminate.
  - intros Hurl Hst. rewrite (Hs Hst) in Hurl. discriminate.
  - intros Herr. destruct (decide (job_status job = failed)) as [| Hno];
      [assumption |]. rewrite (He Hno) in Herr. discriminate.
  - intros Herr Hst. rewrite (Hf Hst) in Herr. discriminate.
Qed.

(** ** Routes with and without the trailing slash *)







(** ** Selections, one after the other *)

Lemma select_record_twice (ids1 ids2 : list string) (record : IngestionRecord) :
  select_record ids2 (select_record ids1 record) = select_record ids2 record.
Proof.
  unfold select_record, set_selection. simpl. f_equal.
  rewrite <- list_fmap_compose. apply list_fmap_ext. intros i g _. simpl.
  f_equal. rewrite <- list_fmap_compose. by apply list_fmap_ext.
Qed.

Lemma select_record_same_set (ids ids' : list string)
    (record : IngestionRecord) :
  (forall x, x ∈ ids <-> x ∈ ids') ->
  select_record ids record = select_record ids' record.
Proof.
  intros Hsame.
  assert ((list_to_set ids : gset string) = list_to_set ids') as Hset.
  { apply set_eq. intros x. rewrite !elem_of_list_to_set. apply Hsame. }
  unfold select_record. by rewrite Hset.
Qed.

(** X22. Of two selections recorded one after the other only the second
    counts: the store is as if the first had never been recorded. And a
    selection counts as a set: two lists with the same ids, in any order
    and with any repetitions, leave the same store and return the same
    set. *)
Theorem record_selection_last_wins (iid : string) (ids1 ids2 ids2' : list string)
    (s : DemoDataStore) :
  record_selection iid ids2 (record_selection iid ids1 s).2
  = record_selection iid ids2 s
  /\ ((forall x, x ∈ ids2 <-> x ∈ ids2') ->
      record_selection iid ids2 s = record_selection iid ids2' s).
Proof.
  unfold record_selection.
  destruct (ingestions s !! iid) as [record |] eqn:Hrec;
    cbn [snd ingestions set_ingestions].
  - rewrite lookup_insert_eq. split.
    + rewrite select_record_twice, insert_insert_eq. reflexivity.
    + intros Hsame.
      rewrite (select_record_same_set ids2 ids2' record Hsame). reflexivity.
  - rewrite Hrec. by split.
Qed.

(** ** What a finalization counts *)

Lemma all_assets_select_record (ids : list string) (record : IngestionRecord) :
  all_assets (select_record ids record)
  = (fun a => set_asset_selected
                (bool_decide (asset_id a ∈ (list_to_set ids : gset string))) a)
    <$> all_assets record.
Proof.
  unfold all_assets, select_record, set_selection.
  cbn [asset_groups]. cbv zeta.
  induction (asset_groups record) as [| g gs IH]; [reflexivity |].
  csimpl. rewrite fmap_app. by rewrite <- IH.
Qed.

Lemma length_filter_flagged (ids : list string) (l : list Asset) :
  length (filter (fun a => asset_selected a = true)
            ((fun a => set_asset_selected
                         (bool_decide (asset_id a ∈ (list_to_set ids : gset string))) a)
             <$> l))
  = length (filter (fun a => asset_id a ∈ ids) l).
Proof.
  induction l as [| a l IH]; [reflexivity |].
  rewrite fmap_cons, !filter_cons. simpl.
  destruct (decide (asset_id a ∈ ids)) as [Hin | Hno].
  - rewrite bool_decide_eq_true_2 by (by apply elem_of_list_to_set).
    simpl. by rewrite IH.
  - rewrite bool_decide_eq_false_2 by (by rewrite elem_of_list_to_set).
    simpl. exact IH.
Qed.

(** X23. The number a finalization returns right after a selection is the
    number of assets of the record whose id is in the selection: an id that
    no asset of the record carries is not counted, and an id given twice is
    counted once for each asset that carries it. *)
Theorem finalize_counts_selected (iid : string) (ids : list string)
    (s : DemoDataStore) (record : IngestionRecord) :
  ingestions s !! iid = Some record ->
  (finalize_ingestion iid (record_selection iid ids s).2).1
  = Some (mkOutcome "library_default"
            (length (filter (fun a => asset_id a ∈ ids) (all_assets record)))).
Proof.
  intros Hrec. unfold record_selection. rewrite Hrec. cbn [snd].
  unfold finalize_ingestion. cbn [ingestions set_ingestions].
  rewrite lookup_insert_eq. cbv zeta. cbn [fst].
  change (selected_assets (complete_record (select_record ids record)))
    with (selected_assets (select_record ids record)).
  rewrite (selected_assets_in_sync (select_record ids record))
    by apply select_record_in_sync.
  rewrite all_assets_select_record, length_filter_flagged. reflexivity.
Qed.

Lemma finalize_counts_selected_witness :
  (finalize_ingestion (_uid "ing" sample_hex)
     (record_selection (_uid "ing" sample_hex)
        ["logo_2_s1"; "nothing_9_s1"; "menu_1_s1"; "logo_2_s1"]
        (start_ingestion "s1" sample_hex 0 empty_store).2).2).1
  = Some (mkOutcome "library_default" 2).
Proof.
  rewrite (finalize_counts_selected (_uid "ing" sample_hex)
             ["logo_2_s1"; "nothing_9_s1"; "menu_1_s1"; "logo_2_s1"]
             (start_ingestion "s1" sample_hex 0 empty_store).2 sample_record).
  - vm_compute. reflexivity.
  - vm_compute. reflexivity.
Defined.
